(** * Metropolis-Hastings warm-up kernels (metropolis.cuh): model and properties

    The CUDA kernels [InitSampleArray] and [WarmupMetropolis] and the device
    functions [MetropolisHastingsStep], [WarmupCopy] and [WarmupGibbs] are
    embedded as Rocq functions.

    - [float] is IEEE binary32, through the Standard Library's [SpecFloat]
      instantiated at precision 24 and maximal exponent 128.
    - [int] values are integers in [Z]; signed overflow and out-of-bounds or
      uninitialised memory accesses are undefined behaviour in the source and
      are [None] here.
    - Device arrays are lists indexed with stdpp's lookup and insert.
    - The cuRAND generator is an interface ([Curand]): a state type with the
      two draws the kernels call.
    - The rounding of the acceptance ratio is analysed over the real numbers
      of the Standard Library. *)

From Stdlib Require Import ZArith Floats.SpecFloat Floats.FloatClass Reals Lra.
From stdpp Require Import base tactics option list numbers.

Local Open Scope Z_scope.

(** ** binary32 arithmetic *)

Module F32.
Definition prec : Z := 24.
Definition emax : Z := 128.

Definition add : spec_float → spec_float → spec_float := SFadd prec emax.
Definition mul : spec_float → spec_float → spec_float := SFmul prec emax.
Definition div : spec_float → spec_float → spec_float := SFdiv prec emax.

(** [leb x y] is the C comparison [x <= y]; [geb x y] is [x >= y].  Both are
    false as soon as one operand is a NaN. *)
Definition leb (x y : spec_float) : bool := SFleb x y.
Definition geb (x y : spec_float) : bool := SFleb y x.
Definition ltb (x y : spec_float) : bool := SFltb x y.

(** Conversion int -> float (round to nearest, ties to even). *)
Definition of_int (z : Z) : spec_float := binary_normalize prec emax z 0 false.

Definition zero : spec_float := S754_zero false.
Definition one : spec_float := of_int 1.
Definition pinf : spec_float := S754_infinity false.
Definition is_nan (x : spec_float) : bool :=
  match x with S754_nan => true | _ => false end.

(** [normal_or_pinf x]: fpclassify(x) is FP_NORMAL or FP_INFINITE, and x is
    positive. *)
Definition normal_or_pinf (x : spec_float) : bool :=
  match SFclassify prec x with
  | PNormal | PInf => true
  | _ => false
  end.
End F32.

Abbreviation float := spec_float (only parsing).

(** ** int *)

Definition INT_MIN : Z := - 2 ^ 31.
Definition INT_MAX : Z := 2 ^ 31 - 1.

Definition in_int (z : Z) : bool := (INT_MIN <=? z) && (z <=? INT_MAX).

(** Signed arithmetic: the mathematical result when it is representable. *)
Definition int_mul (a b : Z) : option Z :=
  if in_int (a * b) then Some (a * b) else None.
Definition int_add (a b : Z) : option Z :=
  if in_int (a + b) then Some (a + b) else None.

(** Conversion float -> int: truncation towards zero, undefined when the
    truncated value is not representable (or the operand is not finite). *)
Definition float_to_int (x : float) : option Z :=
  match x with
  | S754_zero _ => Some 0
  | S754_finite s m e =>
      let a := match e with
               | Zneg p => Z.shiftr (Zpos m) (Zpos p)
               | _ => Z.shiftl (Zpos m) e
               end in
      let v := if s then - a else a in
      if in_int v then Some v else None
  | _ => None
  end.

(** ** Arrays and loops *)

(** [a[i]] as an rvalue and [a[i] = v], for an array of initialised cells. *)
Definition load {A} (a : list A) (i : Z) : option A :=
  if 0 <=? i then a !! Z.to_nat i else None.

Definition store {A} (a : list A) (i : Z) (v : A) : option (list A) :=
  if (0 <=? i) && (i <? Z.of_nat (length a))
  then Some (<[Z.to_nat i := v]> a) else None.

(** A lane-local array [float x[n];] is declared without initialiser: every
    cell starts indeterminate ([None]) and reading such a cell is undefined. *)
Abbreviation local_array := (list (option float)).

Definition declare (n : Z) : local_array := replicate (Z.to_nat n) None.

Definition rd (a : local_array) (i : Z) : option float :=
  c ← load a i; c.

Definition wr (a : local_array) (i : Z) (v : float) : option local_array :=
  store a i (Some v).

(** [for_range count i body] runs [body i], [body (i+1)], ... [count] times. *)
Fixpoint for_range {A} (count : nat) (i : Z) (body : Z → A → option A) (a : A)
  : option A :=
  match count with
  | O => Some a
  | S c => a' ← body i a; for_range c (i + 1) body a'
  end.

(** [for (int n = lo; n < hi; n++) body] *)
Definition for_loop {A} (lo hi : Z) (body : Z → A → option A) (a : A) : option A :=
  for_range (Z.to_nat (hi - lo)) lo body a.

(** The slot of dimension [n], lane [threadId]:
    [totalThreads * n + threadId], computed on int. *)
Definition flat_index (totalThreads n threadId : Z) : option Z :=
  p ← int_mul totalThreads n; int_add p threadId.

(** A kernel launched on lanes [0 .. nThreads-1]; a lane receives its index
    [threadIdx.x + blockIdx.x * blockDim.x] as [threadId].  The lanes are run
    one after the other, in increasing lane order. *)
Definition launch {M} (nThreads : Z) (kernel : Z → M → option M) (mem : M)
  : option M :=
  for_loop 0 nThreads kernel mem.

(** ** The random stream *)

(** [curand_normal] and [curand_uniform] take a pointer to the generator state,
    return one draw and advance the state. *)
Class Curand (curandStateXORWOW : Type) := {
  curand_normal : curandStateXORWOW → float * curandStateXORWOW;
  curand_uniform : curandStateXORWOW → float * curandStateXORWOW
}.

(** A scripted stream: the state is the tape still to be played; both draws
    pop its head (and give 0 once the tape is exhausted). *)
Definition tape_draw (t : list float) : float * list float :=
  match t with
  | [] => (F32.zero, [])
  | x :: t' => (x, t')
  end.

#[global] Instance tape_curand : Curand (list float) :=
  {| curand_normal := tape_draw; curand_uniform := tape_draw |}.

(** The type [PDF], pointer to a function from float to float: a density is
    a pure device function. *)
Definition PDF : Type := float → float.

Definition const_pdf (c : float) : PDF := λ _, c.

(** ** InitSampleArray *)

(** The body of one lane.  The parameter [initSample] has type int; it is
    converted to float by the assignment. *)
Definition InitSampleArray (initSample nNucleons totalThreads : Z)
    (threadId : Z) (prevSample : list float) : option (list float) :=
  for_loop 0 nNucleons
    (λ n a, i ← flat_index totalThreads n threadId;
            store a i (F32.of_int initSample))
    prevSample.

(** A call site whose actual argument is a float value: the argument is
    converted to the declared parameter type int. *)
Definition InitSampleArray_float_arg (initialValue : float)
    (nNucleons totalThreads : Z) (threadId : Z) (prevSample : list float)
  : option (list float) :=
  initSample ← float_to_int initialValue;
  InitSampleArray initSample nNucleons totalThreads threadId prevSample.

Section Metropolis.
Context {curandStateXORWOW : Type} `{!Curand curandStateXORWOW}.

(** ** MetropolisHastingsStep

    The three pointer parameters are in-out: the function takes the values
    they point to and returns the values they point to afterwards.  The
    product and the sum of the proposal are two binary32 operations, each
    rounded, as the expression is written; [1 / nextPDF] divides the float
    conversion of the int 1. *)
Definition MetropolisHastingsStep (pdf : PDF) (prevSample invPrevPDF : float)
    (stepSize : float) (randState : curandStateXORWOW)
  : float * float * curandStateXORWOW :=
  let '(z, randState) := curand_normal randState in
  let nextSample := F32.add prevSample (F32.mul stepSize z) in
  let nextPDF := pdf nextSample in
  let '(u, randState) := curand_uniform randState in
  if F32.geb (F32.mul nextPDF invPrevPDF) u
  then (nextSample, F32.div F32.one nextPDF, randState)
  else (prevSample, invPrevPDF, randState).

(** The lane-local working state of [WarmupMetropolis]. *)
Record Local := mkLocal {
  localRandState : curandStateXORWOW;
  localPrevSample : local_array;
  localInvPrevPDF : local_array
}.

(** [MetropolisHastingsStep<pdf>(&(localPrevSample[n]), &(localInvPrevPDF[n]),
    stepsize, &localRandState)].  The two cells are read, and the values the
    step returns are stored back; when the step rejects these are the values
    just read, and the stores change nothing (lemma [wr_same]). *)
Definition step_dimension (pdf : PDF) (n : Z) (stepsize : float) (st : Local)
  : option Local :=
  x ← rd (localPrevSample st) n;
  inv ← rd (localInvPrevPDF st) n;
  let '(x', inv', rs') :=
    MetropolisHastingsStep pdf x inv stepsize (localRandState st) in
  lps ← wr (localPrevSample st) n x';
  lip ← wr (localInvPrevPDF st) n inv';
  Some (mkLocal rs' lps lip).

(** One dimension of the copy into local storage:
    [localPrevSample[n] = prevSample[totalThreads * n + threadId];
     localInvPrevPDF[n] = 1.f / pdf(localPrevSample[n]);] *)
Definition copy_dimension (totalThreads : Z) (pdf : PDF) (n : Z) (threadId : Z)
    (prevSample : list float) (loc : local_array * local_array)
  : option (local_array * local_array) :=
  i ← flat_index totalThreads n threadId;
  v ← load prevSample i;
  lps ← wr loc.1 n v;
  x ← rd lps n;
  lip ← wr loc.2 n (F32.div F32.one (pdf x));
  Some (lps, lip).

(** ** WarmupCopy and WarmupGibbs

    Instantiating a template either fails to compile or gives a body. *)
Inductive compile_error :=
| static_assert_failed   (* "Incorrect number of pdf's" *)
| no_matching_function   (* no overload accepts the template arguments *)
| ambiguous_call.        (* two overloads are viable, none more specialized *)

Definition copy_body : Type :=
  Z → list float → local_array * local_array
  → option (local_array * local_array).

Definition gibbs_body : Type := float → Local → option Local.

(** A call [WarmupCopy<totalThreads, n, pack...>(...)] names its template
    arguments.  The two overloads have the same function parameters and
    differ only in the trailing template pack [PDF... pdfs]:
    - with no function in [pack] neither overload accepts the arguments;
    - with exactly one function both overloads are viable (the second with
      an empty pack), and since no template parameter occurs in a function
      parameter type neither is more specialized: the call is ambiguous;
    - with two or more functions only the variadic overload is viable; its
      body is [copy_dimension] for the first function followed by the call
      [WarmupCopy<totalThreads, n + 1, pdfs...>], which must instantiate too.
    (The body of the non-variadic overload is [copy_dimension] alone.) *)
Fixpoint WarmupCopy (totalThreads n : Z) (pack : list PDF)
  : compile_error + copy_body :=
  match pack with
  | [] => inl no_matching_function
  | pdf :: pdfs =>
      match pdfs with
      | [] => inl ambiguous_call
      | _ :: _ =>
          match WarmupCopy totalThreads (n + 1) pdfs with
          | inl e => inl e
          | inr rest =>
              inr (λ threadId prevSample loc,
                     loc' ← copy_dimension totalThreads pdf n threadId
                              prevSample loc;
                     rest threadId prevSample loc')
          end
      end
  end.

(** [WarmupGibbs<n, pack...>(...)]: the same two overloads, with
    [step_dimension] in place of [copy_dimension]. *)
Fixpoint WarmupGibbs (n : Z) (pack : list PDF) : compile_error + gibbs_body :=
  match pack with
  | [] => inl no_matching_function
  | pdf :: pdfs =>
      match pdfs with
      | [] => inl ambiguous_call
      | _ :: _ =>
          match WarmupGibbs (n + 1) pdfs with
          | inl e => inl e
          | inr rest =>
              inr (λ stepsize st,
                     st' ← step_dimension pdf n stepsize st;
                     rest stepsize st')
          end
      end
  end.

(** ** WarmupMetropolis *)

(** Branch [sizeof...(pdfs) == 1]: the copy loop and one Gibbs sweep. *)
Definition copy_single (nNucleons totalThreads : Z) (pdf : PDF) (threadId : Z)
    (prevSample : list float) : option (local_array * local_array) :=
  for_loop 0 nNucleons
    (λ n loc, copy_dimension totalThreads pdf n threadId prevSample loc)
    (declare nNucleons, declare nNucleons).

Definition sweep_single (nNucleons : Z) (pdf : PDF) (stepsize : float)
    (st : Local) : option Local :=
  for_loop 0 nNucleons (λ n st, step_dimension pdf n stepsize st) st.

(** The lane-local state once the shared arrays are loaded. *)
Definition load_lane (copy : option (local_array * local_array))
    (threadId : Z) (randState : list curandStateXORWOW) : option Local :=
  rs ← load randState threadId;
  loc ← copy;
  Some (mkLocal rs loc.1 loc.2).

(** [for (int i = 0; i < iterations; i++) sweep] *)
Definition iterate (sweep : Local → option Local) (iterations : Z) (st : Local)
  : option Local :=
  for_loop 0 iterations (λ _ st, sweep st) st.

(** [randState[threadId] = localRandState;] and the store loop. *)
Definition store_lane (nNucleons totalThreads : Z) (threadId : Z) (st : Local)
    (prevSample : list float) (randState : list curandStateXORWOW)
  : option (list float * list curandStateXORWOW) :=
  randState' ← store randState threadId (localRandState st);
  prevSample' ← for_loop 0 nNucleons
    (λ n a, i ← flat_index totalThreads n threadId;
            v ← rd (localPrevSample st) n;
            store a i v)
    prevSample;
  Some (prevSample', randState').

(** The lane-local state after [k] iterations of the loop, and the whole
    body of one lane, for each branch. *)
Definition local_single (nNucleons totalThreads : Z) (pdf : PDF) (threadId : Z)
    (prevSample : list float) (stepsize : float)
    (randState : list curandStateXORWOW) (k : Z) : option Local :=
  st ← load_lane (copy_single nNucleons totalThreads pdf threadId prevSample)
       threadId randState;
  iterate (sweep_single nNucleons pdf stepsize) k st.

(** The other branch, given the bodies that [WarmupCopy<totalThreads, 0,
    pdfs...>] and [WarmupGibbs<0, pdfs...>] instantiate to. *)
Definition local_multi (nNucleons : Z) (copy : copy_body) (gibbs : gibbs_body)
    (threadId : Z) (prevSample : list float) (stepsize : float)
    (randState : list curandStateXORWOW) (k : Z) : option Local :=
  st ← load_lane
         (copy threadId prevSample (declare nNucleons, declare nNucleons))
         threadId randState;
  iterate (gibbs stepsize) k st.

Definition WarmupMetropolis_single (nNucleons totalThreads : Z) (pdf : PDF)
    (threadId : Z) (prevSample : list float) (stepsize : float)
    (randState : list curandStateXORWOW) (iterations : Z)
  : option (list float * list curandStateXORWOW) :=
  st ← local_single nNucleons totalThreads pdf threadId prevSample stepsize
       randState iterations;
  store_lane nNucleons totalThreads threadId st prevSample randState.

Definition WarmupMetropolis_multi (nNucleons totalThreads : Z)
    (copy : copy_body) (gibbs : gibbs_body)
    (threadId : Z) (prevSample : list float)
    (stepsize : float) (randState : list curandStateXORWOW) (iterations : Z)
  : option (list float * list curandStateXORWOW) :=
  st ← local_multi nNucleons copy gibbs threadId prevSample stepsize
       randState iterations;
  store_lane nNucleons totalThreads threadId st prevSample randState.

(** Instantiating the template [WarmupMetropolis<nNucleons, totalThreads,
    pdfs...>] either fails to compile or gives the body of a lane.  With one
    function the other branch is discarded by [if constexpr]; otherwise the
    static assertion is checked and the two calls of that branch must
    instantiate. *)
Definition lane_body : Type :=
  Z → list float → float → list curandStateXORWOW → Z
  → option (list float * list curandStateXORWOW).

Definition WarmupMetropolis (nNucleons totalThreads : Z) (pdfs : list PDF)
  : compile_error + lane_body :=
  match pdfs with
  | [pdf] => inr (WarmupMetropolis_single nNucleons totalThreads pdf)
  | _ =>
      if nNucleons =? Z.of_nat (length pdfs) then
        match WarmupCopy totalThreads 0 pdfs with
        | inl e => inl e
        | inr copy =>
            match WarmupGibbs 0 pdfs with
            | inl e => inl e
            | inr gibbs =>
                inr (WarmupMetropolis_multi nNucleons totalThreads copy gibbs)
            end
        end
      else inl static_assert_failed
  end.

(** ** The density bound to a dimension, and the kernel over a binding

    [bound_pdf pdfs n] is the function that the instantiation on the pack
    [pdfs] applies to dimension [n]: the only function of a pack of one (for
    any other pack, which never instantiates, the [n]-th function, the one
    the per-dimension branch names for dimension [n]).  The [_bound]
    definitions below are the two phases and the lane body written once over
    such a binding; they are what an instantiated [WarmupMetropolis] is
    proved equal to. *)
Definition bound_pdf (pdfs : list PDF) (n : Z) : PDF :=
  match pdfs with
  | [pdf] => pdf
  | _ => nth (Z.to_nat n) pdfs (const_pdf S754_nan)
  end.

Definition copy_bound (nNucleons totalThreads : Z) (pdf_of : Z → PDF)
    (threadId : Z) (prevSample : list float)
  : option (local_array * local_array) :=
  for_loop 0 nNucleons
    (λ n loc, copy_dimension totalThreads (pdf_of n) n threadId prevSample loc)
    (declare nNucleons, declare nNucleons).

Definition sweep_bound (nNucleons : Z) (pdf_of : Z → PDF) (stepsize : float)
    (st : Local) : option Local :=
  for_loop 0 nNucleons (λ n st, step_dimension (pdf_of n) n stepsize st) st.

Definition local_bound (nNucleons totalThreads : Z) (pdf_of : Z → PDF)
    (threadId : Z) (prevSample : list float) (stepsize : float)
    (randState : list curandStateXORWOW) (k : Z) : option Local :=
  st ← load_lane (copy_bound nNucleons totalThreads pdf_of threadId prevSample)
       threadId randState;
  iterate (sweep_bound nNucleons pdf_of stepsize) k st.

Definition WarmupMetropolis_bound (nNucleons totalThreads : Z)
    (pdf_of : Z → PDF) : lane_body :=
  λ threadId prevSample stepsize randState iterations,
    st ← local_bound nNucleons totalThreads pdf_of threadId prevSample stepsize
         randState iterations;
    store_lane nNucleons totalThreads threadId st prevSample randState.

(** The lane-local arrays hold a value in each of their [nNucleons] cells. *)
Definition local_ok (nNucleons : Z) (st : Local) : Prop :=
  Z.of_nat (length (localPrevSample st)) = nNucleons ∧
  Z.of_nat (length (localInvPrevPDF st)) = nNucleons ∧
  ∀ n, 0 ≤ n < nNucleons →
       is_Some (rd (localPrevSample st) n) ∧ is_Some (rd (localInvPrevPDF st) n).

(** The cache invariant: in every dimension the cached value is
    1 / density(current sample), for the density bound to the dimension. *)
Definition cache_consistent (nNucleons : Z) (pdf_of : Z → PDF) (st : Local)
  : Prop :=
  ∀ n, 0 ≤ n < nNucleons →
       ∃ x, rd (localPrevSample st) n = Some x ∧
            rd (localInvPrevPDF st) n = Some (F32.div F32.one (pdf_of n x)).

(** The launch configuration and the shared arrays fit lane [threadId]: the
    lane is one of the [totalThreads] lanes, the slot indices are
    representable, and the two arrays are large enough. *)
Definition lane_wf (nNucleons totalThreads threadId : Z)
    (prevSample : list float) (randState : list curandStateXORWOW) : Prop :=
  0 ≤ threadId < totalThreads ∧ 0 ≤ nNucleons ∧
  totalThreads * nNucleons ≤ INT_MAX ∧
  totalThreads * nNucleons ≤ Z.of_nat (length prevSample) ∧
  threadId < Z.of_nat (length randState).

(** The lane-local state after [k] iterations, in the branch that the
    instantiation on the pack [pdfs] selects (there is none when the calls of
    the other branch do not instantiate). *)
Definition lane_local (nNucleons totalThreads : Z) (pdfs : list PDF)
    (threadId : Z) (prevSample : list float) (stepsize : float)
    (randState : list curandStateXORWOW) (k : Z) : option Local :=
  match pdfs with
  | [pdf] =>
      local_single nNucleons totalThreads pdf threadId prevSample stepsize
        randState k
  | _ =>
      match WarmupCopy totalThreads 0 pdfs, WarmupGibbs 0 pdfs with
      | inr copy, inr gibbs =>
          local_multi nNucleons copy gibbs threadId prevSample stepsize
            randState k
      | _, _ => None
      end
  end.

(** The stream after one normal draw followed by one uniform draw. *)
Definition two_draws (rs : curandStateXORWOW) : curandStateXORWOW :=
  (curand_uniform (curand_normal rs).2).2.

(** [swept nNucleons pdf_of stepsize st st']: [st'] is [st] after one step in
    each dimension, dimension [n] having used the density [pdf_of n] and the
    draws number [2n] (normal) and [2n+1] (uniform) of the lane's stream. *)
Definition swept (nNucleons : Z) (pdf_of : Z → PDF) (stepsize : float)
    (st st' : Local) : Prop :=
  localRandState st' =
    Nat.iter (Z.to_nat nNucleons) two_draws (localRandState st) ∧
  ∀ n, 0 ≤ n < nNucleons →
    ∃ x inv,
      rd (localPrevSample st) n = Some x ∧
      rd (localInvPrevPDF st) n = Some inv ∧
      let r := MetropolisHastingsStep (pdf_of n) x inv stepsize
                 (Nat.iter (Z.to_nat n) two_draws (localRandState st)) in
      rd (localPrevSample st') n = Some r.1.1 ∧
      rd (localInvPrevPDF st') n = Some r.1.2.

End Metropolis.


(** ** Concrete values and densities used in the examples *)

(** 0.5, the largest float below 1 (1 - 2^-24), and 12582913 * 2^104. *)
Definition f32_half : float := S754_finite false 8388608 (-24).
Definition f32_below_one : float := S754_finite false 16777215 (-24).
Definition f32_big : float := S754_finite false 12582913 104.

(** A density that vanishes on y <= 5 and is 1 above. *)
Definition shelf_pdf : PDF :=
  λ y, if F32.leb y (F32.of_int 5) then F32.zero else F32.one.


(** A launch of two lanes on two dimensions: a pack of two functions, the
    sample array (all zero) and the scripted streams of the two lanes. *)
Definition example_pack : list PDF := [const_pdf F32.one; shelf_pdf].

Definition example_samples : list float :=
  [F32.zero; F32.zero; F32.zero; F32.zero].

Definition example_streams : list (list float) :=
  [[F32.one; f32_half; F32.of_int 6; f32_half];
   [F32.of_int 6; f32_half; F32.one; F32.one]].


(** ** RandStateInit *)

(** [curand_init(seed, sequence, offset, &state)] writes a fresh generator
    state through its last argument. *)
Class CurandInit (curandStateXORWOW : Type) := {
  curand_init : Z → Z → Z → curandStateXORWOW
}.

#[global] Instance tape_curand_init : CurandInit (list float) :=
  {| curand_init seed sequence offset :=
       [F32.of_int seed; F32.of_int sequence; F32.of_int offset] |}.

(** The body of one lane: the same seed for every lane, the lane index as
    sequence number, no offset. *)
Definition RandStateInit {curandStateXORWOW : Type}
    `{!CurandInit curandStateXORWOW} (seed : Z) (threadId : Z)
    (randState : list curandStateXORWOW) : option (list curandStateXORWOW) :=
  store randState threadId (curand_init seed threadId 0).

(** ** Schedules *)

(** The lanes of [order] run one after the other, in the order of the list. *)
Fixpoint run_lanes {M} (order : list Z) (kernel : Z → M → option M) (mem : M)
  : option M :=
  match order with
  | [] => Some mem
  | t :: rest => mem' ← kernel t mem; run_lanes rest kernel mem'
  end.

(** A lane body of [WarmupMetropolis] as a kernel on the pair of the sample
    array and the stream-state array. *)
Definition lane_kernel {curandStateXORWOW : Type}
    (body : @lane_body curandStateXORWOW) (stepsize : float) (iterations : Z)
  : Z → list float * list curandStateXORWOW
    → option (list float * list curandStateXORWOW) :=
  λ threadId mem, body threadId mem.1 stepsize mem.2 iterations.

(** [lanes_done ... a r done a' r']: the arrays [a'], [r'] are [a], [r] where
    each lane of [done] has written back what it computes on [a] and [r], and
    every other cell is as in [a] and [r]. *)
Definition lanes_done {curandStateXORWOW : Type} `{!Curand curandStateXORWOW}
    (nNucleons totalThreads : Z) (pdf_of : Z → PDF) (stepsize : float)
    (iterations : Z) (a : list float) (r : list curandStateXORWOW)
    (done : list Z) (a' : list float) (r' : list curandStateXORWOW) : Prop :=
  length a' = length a ∧ length r' = length r ∧
  (∀ t, 0 ≤ t < totalThreads → t ∈ done →
     ∃ st, local_bound nNucleons totalThreads pdf_of t a stepsize r iterations
             = Some st ∧
           r' !! Z.to_nat t = Some (localRandState st) ∧
           ∀ n, 0 ≤ n < nNucleons →
             a' !! Z.to_nat (totalThreads * n + t) = rd (localPrevSample st) n) ∧
  (∀ t, 0 ≤ t < totalThreads → t ∉ done →
     r' !! Z.to_nat t = r !! Z.to_nat t ∧
     ∀ n, 0 ≤ n < nNucleons →
       a' !! Z.to_nat (totalThreads * n + t) =
       a !! Z.to_nat (totalThreads * n + t)) ∧
  (∀ j : nat, (Z.to_nat (totalThreads * nNucleons) ≤ j)%nat → a' !! j = a !! j) ∧
  (∀ j : nat, (Z.to_nat totalThreads ≤ j)%nat → r' !! j = r !! j).

(** The launch configuration fits the arrays, for all lanes. *)
Definition launch_wf {curandStateXORWOW : Type} (nNucleons totalThreads : Z)
    (prevSample : list float) (randState : list curandStateXORWOW) : Prop :=
  0 ≤ nNucleons ∧
  totalThreads * nNucleons ≤ INT_MAX ∧
  totalThreads * nNucleons ≤ Z.of_nat (length prevSample) ∧
  totalThreads ≤ Z.of_nat (length randState).

(** A float that is a zero or a NaN. *)
Definition f32_zero_or_nan (x : float) : bool :=
  match x with
  | S754_zero _ | S754_nan => true
  | _ => false
  end.

(** A stream whose state counts the draws made: normal draw number k is the
    float k, every uniform draw is 0.5. *)
#[global] Instance steady_curand : Curand Z :=
  {| curand_normal s := (F32.of_int s, s + 1);
     curand_uniform s := (f32_half, s + 1) |}.

(** ** cudaCores *)

(** The fields of [cudaDeviceProp] that [cudaCores] reads. *)
Record cudaDeviceProp := {
  major : Z;
  minor : Z;
  multiProcessorCount : Z
}.

Definition cudaSuccess : Z := 0.

(** What the function prints: the message of [cudaCheckError] (with the line
    of the check and the error code) and the line "Unknown device type". *)
Inductive message :=
| Cuda_error (line : Z) (err : Z)
| Unknown_device_type.

(** How a call ends: it returns a value, or [cudaCheckError] exits the
    process, or an int product overflows. *)
Inductive outcome :=
| Returned (cores : Z) (out : list message)
| Exited (status : Z) (out : list message)
| Undefined.

(** [cudaCores], given what [cudaGetDeviceProperties] stored in [devProp] and
    what [cudaGetLastError] then returns. *)
Definition cudaCores (devProp : cudaDeviceProp) (err : Z) : outcome :=
  if err =? cudaSuccess then
    let mp := multiProcessorCount devProp in
    let times (k : Z) :=
      match int_mul mp k with
      | Some cores => Returned cores []
      | None => Undefined
      end in
    let unknown := Returned 0 [Unknown_device_type] in
    if major devProp =? 2 then
      if minor devProp =? 1 then times 48 else times 32
    else if major devProp =? 3 then times 192
    else if major devProp =? 5 then times 128
    else if major devProp =? 6 then
      if (minor devProp =? 1) || (minor devProp =? 2) then times 128
      else if minor devProp =? 0 then times 64
      else unknown
    else if major devProp =? 7 then
      if (minor devProp =? 0) || (minor devProp =? 5) then times 64
      else unknown
    else if major devProp =? 8 then
      if minor devProp =? 0 then times 64
      else if minor devProp =? 6 then times 128
      else unknown
    else unknown
  else Exited 1 [Cuda_error 77 err].


(** ** Devices for the rounding analysis *)

(** The location invariant: the real N / D lies in [m, m+1), and the round and
    sticky bits say where. *)
Definition located (m : Z) (r s : bool) (N D : Z) : Prop :=
  0 < D ∧ N < (m + 1) * D ∧
  (r = false → s = false → N ≤ m * D) ∧
  (¬ (r = true ∧ s = true) → 2 * N ≤ (2 * m + 1) * D).

(** [mrs] is m0 shifted right by k places. *)
Definition shifted (m0 N D : Z) (k : Z) (mrs : shr_record) : Prop :=
  0 ≤ shr_m mrs ∧ shr_m mrs = m0 / 2 ^ k ∧
  located (shr_m mrs) (shr_r mrs) (shr_s mrs) N (D * 2 ^ k).

(** The same with the position given as a [location]. *)
Definition located_at (m : Z) (l : location) (N D : Z) : Prop :=
  located m (shr_r (shr_record_of_loc m l)) (shr_s (shr_record_of_loc m l)) N D.

(** The binary32 number that rounding returns for a mantissa m1 <= 2^24 at
    exponent e1 >= -149. *)
Definition round_result (m1 e1 : Z) : spec_float :=
  if m1 =? 0 then S754_zero false
  else if m1 <? 2 ^ 24 then
    if e1 <=? 104 then S754_finite false (Z.to_pos m1) e1
    else S754_infinity false
  else
    if e1 + 1 <=? 104 then S754_finite false 8388608 (e1 + 1)
    else S754_infinity false.

(** The real value m * 2^e of a mantissa and an exponent, and 1 - 2^-24. *)
Definition bpow (e : Z) : R := powerRZ 2 e.

Definition F2R (m e : Z) : R := (IZR m * bpow e)%R.

Definition b1R : R := F2R 16777215 (-24).


(** * Properties *)

(** ** Loops and arrays *)

Lemma for_range_inv {A} (I : Z → A → Prop) (body : Z → A → option A)
    (count : nat) (lo : Z) (a : A) :
  I lo a →
  (∀ i x, lo ≤ i < lo + Z.of_nat count → I i x →
          ∃ x', body i x = Some x' ∧ I (i + 1) x') →
  ∃ a', for_range count lo body a = Some a' ∧ I (lo + Z.of_nat count) a'.
Proof.
  revert lo a. induction count as [|c IH]; intros lo a H0 Hstep.
  - exists a. split; [done|]. by replace (lo + Z.of_nat 0) with lo by lia.
  - destruct (Hstep lo a) as (a1 & Hb & H1); [lia|done|].
    destruct (IH (lo + 1) a1) as (a2 & Hr & H2); [done| |].
    + intros i x Hi. apply Hstep. lia.
    + exists a2. cbn [for_range]. rewrite Hb. cbn. split; [done|].
      by replace (lo + Z.of_nat (S c)) with (lo + 1 + Z.of_nat c) by lia.
Qed.

Lemma for_loop_inv {A} (I : Z → A → Prop) (body : Z → A → option A)
    (lo hi : Z) (a : A) :
  lo ≤ hi →
  I lo a →
  (∀ i x, lo ≤ i < hi → I i x → ∃ x', body i x = Some x' ∧ I (i + 1) x') →
  ∃ a', for_loop lo hi body a = Some a' ∧ I hi a'.
Proof.
  intros Hle H0 Hstep. unfold for_loop.
  destruct (for_range_inv I body (Z.to_nat (hi - lo)) lo a) as (a' & Hr & Ha');
    [done| |].
  - intros i x Hi. apply Hstep. lia.
  - exists a'. split; [done|]. by replace hi with (lo + Z.of_nat (Z.to_nat (hi - lo))) by lia.
Qed.

Lemma for_range_ext {A} (f g : Z → A → option A) (count : nat) (lo : Z) (a : A) :
  (∀ i x, lo ≤ i < lo + Z.of_nat count → f i x = g i x) →
  for_range count lo f a = for_range count lo g a.
Proof.
  revert lo a. induction count as [|c IH]; intros lo a Hfg; [done|].
  cbn [for_range]. rewrite Hfg by lia. destruct (g lo a) as [a1|]; [|done].
  cbn. apply IH. intros i x Hi. apply Hfg. lia.
Qed.

Lemma for_range_S {A} (body : Z → A → option A) (c : nat) (i : Z) (a : A) :
  for_range (S c) i body a = a' ← body i a; for_range c (i + 1) body a'.
Proof. done. Qed.

Lemma for_loop_empty {A} (body : Z → A → option A) (lo hi : Z) (a : A) :
  hi ≤ lo → for_loop lo hi body a = Some a.
Proof. intros H. unfold for_loop. by replace (Z.to_nat (hi - lo)) with 0%nat by lia. Qed.

Lemma load_Some {A} (a : list A) (i : Z) (v : A) :
  load a i = Some v ↔ 0 ≤ i ∧ a !! Z.to_nat i = Some v.
Proof.
  unfold load. destruct (Z.leb_spec 0 i); split; intros; try done.
  - by destruct H0.
  - lia.
Qed.

Lemma store_Some {A} (a : list A) (i : Z) (v : A) :
  0 ≤ i < Z.of_nat (length a) → store a i v = Some (<[Z.to_nat i := v]> a).
Proof.
  intros Hi. unfold store.
  destruct (Z.leb_spec 0 i); [|lia].
  destruct (Z.ltb_spec i (Z.of_nat (length a))); [done|lia].
Qed.

Lemma store_inv {A} (a a' : list A) (i : Z) (v : A) :
  store a i v = Some a' →
  0 ≤ i < Z.of_nat (length a) ∧ a' = <[Z.to_nat i := v]> a.
Proof.
  unfold store.
  destruct (Z.leb_spec 0 i); [|done].
  destruct (Z.ltb_spec i (Z.of_nat (length a))); [|done].
  cbn. intros [= <-]. done.
Qed.

Lemma rd_Some (a : local_array) (i : Z) (v : float) :
  rd a i = Some v ↔ 0 ≤ i ∧ a !! Z.to_nat i = Some (Some v).
Proof.
  unfold rd. split.
  - intros H. destruct (load a i) as [c|] eqn:E; [|done]. cbn in H. subst c.
    by apply load_Some in E.
  - intros H. apply load_Some in H. by rewrite H.
Qed.

Lemma wr_same (a : local_array) (i : Z) (v : float) :
  rd a i = Some v → wr a i v = Some a.
Proof.
  intros H. apply rd_Some in H as [H0 H]. unfold wr.
  rewrite store_Some.
  - by rewrite list_insert_id.
  - apply lookup_lt_Some in H. lia.
Qed.

Lemma flat_index_Some (totalThreads n threadId : Z) :
  0 ≤ n → 0 ≤ threadId < totalThreads →
  totalThreads * (n + 1) ≤ INT_MAX →
  flat_index totalThreads n threadId = Some (totalThreads * n + threadId).
Proof.
  intros Hn Ht Hmax. unfold flat_index, int_mul, int_add, in_int, INT_MIN.
  assert (0 ≤ totalThreads * n) by nia.
  assert (totalThreads * n + threadId < totalThreads * (n + 1)) by nia.
  assert (0 < 2 ^ 31) by lia.
  destruct (Z.leb_spec (- 2 ^ 31) (totalThreads * n)); [|lia].
  destruct (Z.leb_spec (totalThreads * n) INT_MAX); [|lia]. cbn.
  destruct (Z.leb_spec (- 2 ^ 31) (totalThreads * n + threadId)); [|lia].
  destruct (Z.leb_spec (totalThreads * n + threadId) INT_MAX); [done|lia].
Qed.

Lemma flat_index_inv (totalThreads n threadId i : Z) :
  flat_index totalThreads n threadId = Some i → i = totalThreads * n + threadId.
Proof.
  unfold flat_index, int_mul, int_add.
  destruct (in_int (totalThreads * n)); [|done]. cbn.
  destruct (in_int (totalThreads * n + threadId)); [|done]. by intros [= <-].
Qed.

(** Distinct (dimension, lane) pairs have distinct slots. *)
Lemma flat_index_inj (totalThreads n n' t t' : Z) :
  0 ≤ t < totalThreads → 0 ≤ t' < totalThreads →
  totalThreads * n + t = totalThreads * n' + t' → n = n' ∧ t = t'.
Proof. intros Ht Ht' E. assert (n = n') by nia. subst. lia. Qed.

(** ** Comparisons of binary32 values *)

Lemma SFleb_trans_pos (r u : float) (m : positive) (e : Z) :
  SFleb (S754_finite false m e) r = true →
  SFleb u (S754_finite false m e) = true →
  SFleb u r = true.
Proof.
  unfold SFleb, SFcompare.
  destruct r as [sr|[]| |[] mr er], u as [su|[]| |[] mu eu]; try done.
  rewrite !Pos.compare_cont_spec. unfold Pos.switch_Eq.
  destruct (Z.compare_spec e er), (Z.compare_spec eu e), (Z.compare_spec eu er);
    try done; try lia; subst.
  destruct (Pos.compare_spec m mr), (Pos.compare_spec mu m),
    (Pos.compare_spec mu mr); try done; lia.
Qed.

Lemma SFltb_finite_pos (m m' : positive) (e e' : Z) :
  SFltb (S754_finite false m e) (S754_finite false m' e') = true →
  e < e' ∨ (e = e' ∧ Z.pos m < Z.pos m').
Proof.
  unfold SFltb, SFcompare.
  destruct (Z.compare_spec e e') as [->|?|?]; [|by left|done].
  rewrite Pos.compare_cont_spec. unfold Pos.switch_Eq.
  destruct (Pos.compare_spec m m') as [|H|]; [done| |done].
  intros _. right. split; [done|]. by apply Pos2Z.pos_lt_pos.
Qed.

Lemma SFleb_finite_pos (m m' : positive) (e e' : Z) :
  e < e' ∨ (e = e' ∧ Z.pos m ≤ Z.pos m') →
  SFleb (S754_finite false m e) (S754_finite false m' e') = true.
Proof.
  unfold SFleb, SFcompare. intros H.
  destruct (Z.compare_spec e e') as [->|?|?]; [|done|lia].
  rewrite Pos.compare_cont_spec. unfold Pos.switch_Eq.
  destruct (Pos.compare_spec m m') as [| |Hgt]; [done|done|].
  apply Pos2Z.pos_lt_pos in Hgt. lia.
Qed.

Lemma one_eq : F32.one = S754_finite false 8388608 (-23).
Proof. reflexivity. Qed.

Lemma geb_pinf (u : float) : F32.is_nan u = false → F32.geb F32.pinf u = true.
Proof. by destruct u as [|[]| |]. Qed.

Lemma geb_nan (u : float) : F32.geb S754_nan u = false.
Proof. by destruct u as [|[]| |]. Qed.

Lemma mul_pos_pinf (p : float) :
  F32.ltb F32.zero p = true → F32.mul p F32.pinf = F32.pinf.
Proof. by destruct p as [|[]| |[]]. Qed.

Lemma mul_zero_pinf (s : bool) : F32.mul (S754_zero s) F32.pinf = S754_nan.
Proof. done. Qed.

Lemma div_one_zero (s : bool) : F32.div F32.one (S754_zero s) = S754_infinity s.
Proof. by destruct s. Qed.

(** ** Rounding of binary32 products and quotients *)

(** The exponent of the format: 24 digits above the least exponent -149. *)
Lemma fexp32 (e : Z) : fexp 24 128 e = Z.max (e - 24) (-149).
Proof. reflexivity. Qed.

(** [digits2_pos p] is the number of binary digits of p. *)
Lemma digits2_pos_bounds (p : positive) :
  2 ^ (Z.pos (digits2_pos p) - 1) ≤ Z.pos p < 2 ^ Z.pos (digits2_pos p).
Proof.
  induction p as [p IH|p IH|]; cbn [digits2_pos].
  - rewrite Pos2Z.inj_succ, Pos2Z.inj_xI.
    replace (Z.succ (Z.pos (digits2_pos p)) - 1) with (Z.succ (Z.pos (digits2_pos p) - 1)) by lia.
    rewrite !Z.pow_succ_r by lia.
    set (X := 2 ^ (Z.pos (digits2_pos p) - 1)) in *.
    set (Y := 2 ^ Z.pos (digits2_pos p)) in *. lia.
  - rewrite Pos2Z.inj_succ. change (Z.pos p~0) with (2 * Z.pos p).
    replace (Z.succ (Z.pos (digits2_pos p)) - 1) with (Z.succ (Z.pos (digits2_pos p) - 1)) by lia.
    rewrite !Z.pow_succ_r by lia.
    set (X := 2 ^ (Z.pos (digits2_pos p) - 1)) in *.
    set (Y := 2 ^ Z.pos (digits2_pos p)) in *. lia.
  - cbn. lia.
Qed.

Lemma Zdigits2_bounds (m : Z) : 0 ≤ m → m < 2 ^ Zdigits2 m ∧ 0 ≤ Zdigits2 m.
Proof.
  intros Hm. destruct m as [|p|p]; [cbn; lia| |lia].
  cbn [Zdigits2]. pose proof (digits2_pos_bounds p). lia.
Qed.

Lemma Zdigits2_lower (m : Z) : 0 < m → 2 ^ (Zdigits2 m - 1) ≤ m.
Proof.
  intros Hm. destruct m as [|p|p]; [lia| |lia].
  cbn [Zdigits2]. pose proof (digits2_pos_bounds p). lia.
Qed.

(** One right shift halves the mantissa and keeps the value located. *)
Lemma shr_1_spec (m : Z) (r s : bool) (N D : Z) :
  0 ≤ m → located m r s N D →
  let mrs' := shr_1 (Build_shr_record m r s) in
  shr_m mrs' = m / 2 ∧
  located (shr_m mrs') (shr_r mrs') (shr_s mrs') N (2 * D).
Proof.
  intros Hm (HD & Hup & Hex & Hmid).
  assert (Hcases : (∃ q, m = 2 * q ∧ 0 ≤ q ∧
                         shr_1 (Build_shr_record m r s) = Build_shr_record q false (r || s)) ∨
                   (∃ q, m = 2 * q + 1 ∧ 0 ≤ q ∧
                         shr_1 (Build_shr_record m r s) = Build_shr_record q true (r || s))).
  { destruct m as [|[p|p|]|]; [left; by exists 0|right|left|right; by exists 0|lia].
    - exists (Z.pos p). rewrite Pos2Z.inj_xI. repeat split; lia.
    - exists (Z.pos p). change (Z.pos p~0) with (2 * Z.pos p). repeat split; lia. }
  destruct Hcases as [(q & -> & Hq & ->)|(q & -> & Hq & ->)]; cbn [shr_m shr_r shr_s].
  - split; [apply (Z.div_unique _ 2 q 0); lia|].
    repeat split; try lia.
    + intros _ Hs. apply orb_false_iff in Hs as [-> ->].
      specialize (Hex eq_refl eq_refl). lia.
  - split; [apply (Z.div_unique _ 2 q 1); lia|].
    repeat split; try lia.
    + intros Hn%not_and_l. destruct Hn as [Hn|Hn]; [done|].
      apply not_true_is_false, orb_false_iff in Hn as [-> ->].
      specialize (Hex eq_refl eq_refl). lia.
Qed.

Lemma shr_1_shifted (m0 N D k : Z) (mrs : shr_record) :
  0 ≤ k → shifted m0 N D k mrs → shifted m0 N D (k + 1) (shr_1 mrs).
Proof.
  intros Hk (Hm & Hdiv & Hloc). destruct mrs as [m r s]. cbn [shr_m shr_r shr_s] in *.
  destruct (shr_1_spec m r s N (D * 2 ^ k) Hm Hloc) as [E Hloc'].
  split; [rewrite E; apply Z.div_pos; lia|]. split.
  - rewrite E, Hdiv, Z.div_div by lia. f_equal.
    rewrite Z.pow_add_r by lia. lia.
  - replace (D * 2 ^ (k + 1)) with (2 * (D * 2 ^ k)); [done|].
    rewrite Z.pow_add_r by lia. lia.
Qed.

Lemma iter_shr_1_shifted (m0 N D : Z) (p : positive) :
  ∀ k mrs, 0 ≤ k → shifted m0 N D k mrs →
           shifted m0 N D (k + Z.pos p) (SpecFloat.iter_pos shr_1 p mrs).
Proof.
  induction p as [p IH|p IH|]; intros k mrs Hk H; cbn [SpecFloat.iter_pos].
  - replace (k + Z.pos p~1) with (k + 1 + Z.pos p + Z.pos p) by lia.
    apply IH; [lia|]. apply IH; [lia|]. by apply shr_1_shifted.
  - replace (k + Z.pos p~0) with (k + Z.pos p + Z.pos p) by lia.
    apply IH; [lia|]. by apply IH.
  - by apply shr_1_shifted.
Qed.

Lemma shr_nonpos (mrs : shr_record) (e n : Z) : n ≤ 0 → shr mrs e n = (mrs, e).
Proof. intros H. destruct n as [|p|p]; [done|lia|done]. Qed.

Lemma shr_m_of_loc (m : Z) (l : location) : shr_m (shr_record_of_loc m l) = m.
Proof. by destruct l as [|[]]. Qed.

(** [shr_fexp] shifts the mantissa onto the grid of the format: the result
    has less than 2^24 as mantissa, and the value stays located. *)
Lemma shr_fexp_spec (m e : Z) (l : location) (N D : Z) :
  0 ≤ m → located_at m l N D →
  ∃ n mrs,
    shr_fexp 24 128 m e l = (mrs, e + n) ∧ 0 ≤ n ∧
    shifted m N D n mrs ∧ -149 ≤ e + n ∧ shr_m mrs < 2 ^ 24 ∧
    (n = 0 ∨ e + n = fexp 24 128 (Zdigits2 m + e)).
Proof.
  intros Hm Hloc. unfold shr_fexp.
  pose proof (Zdigits2_bounds m Hm) as [Hd Hd0].
  set (d := Zdigits2 m) in *.
  pose proof (fexp32 (d + e)) as Hf.
  set (f := fexp 24 128 (d + e)) in *.
  destruct (Z_le_gt_dec (f - e) 0) as [Hk|Hk].
  - exists 0, (shr_record_of_loc m l). rewrite shr_nonpos by done.
    replace (e + 0) with e by lia. split; [done|]. split; [done|].
    split; [|split; [lia|split; [|by left]]].
    + unfold shifted. rewrite shr_m_of_loc, Z.pow_0_r, Z.div_1_r, Z.mul_1_r. done.
    + rewrite shr_m_of_loc. assert (d ≤ 24) by lia.
      pose proof (Z.pow_le_mono_r 2 d 24 ltac:(lia) ltac:(lia)). lia.
  - destruct (f - e) as [|p|p] eqn:E; [lia| |lia].
    exists (Z.pos p), (SpecFloat.iter_pos shr_1 p (shr_record_of_loc m l)).
    cbn [shr]. split; [done|]. split; [lia|].
    assert (Hsh : shifted m N D (Z.pos p)
                    (SpecFloat.iter_pos shr_1 p (shr_record_of_loc m l))).
    { apply (iter_shr_1_shifted m N D p 0); [lia|].
      unfold shifted. rewrite shr_m_of_loc, Z.pow_0_r, Z.div_1_r, Z.mul_1_r. done. }
    split; [done|]. split; [lia|]. split; [|right; lia].
    destruct Hsh as (_ & -> & _).
    apply Z.div_lt_upper_bound; [lia|].
    assert (d ≤ Z.pos p + 24) by lia.
    pose proof (Z.pow_le_mono_r 2 d (Z.pos p + 24) ltac:(lia) ltac:(lia)) as Hp.
    rewrite Z.pow_add_r in Hp by lia. lia.
Qed.

(** Rounding to nearest: the result is [round_result m1 e1] with m1 the
    truncated mantissa or its successor, and the value is at most half a unit
    above m1. *)
Lemma binary_round_aux_spec (mx ex : Z) (lx : location) (N D : Z) :
  0 ≤ mx → located_at mx lx N D →
  ∃ n m0 m1,
    0 ≤ n ∧ m0 = mx / 2 ^ n ∧ 0 ≤ m0 < 2 ^ 24 ∧ (m1 = m0 ∨ m1 = m0 + 1) ∧
    -149 ≤ ex + n ∧
    (n = 0 ∨ ex + n = fexp 24 128 (Zdigits2 mx + ex)) ∧
    2 * N ≤ (2 * m1 + 1) * (D * 2 ^ n) ∧
    binary_round_aux 24 128 false mx ex lx = round_result m1 (ex + n).
Proof.
  intros Hm Hloc.
  destruct (shr_fexp_spec mx ex lx N D Hm Hloc)
    as (n & mrs & Hshr & Hn & (Hm0 & Hdiv & HD & Hup & Hex & Hmid) & He & Hlt & Hcan).
  unfold binary_round_aux. rewrite Hshr.
  set (e1 := ex + n) in *.
  set (m0 := shr_m mrs) in *.
  set (m1 := round_nearest_even m0 (loc_of_shr_record mrs)).
  assert (Hm1 : (m1 = m0 ∨ m1 = m0 + 1) ∧ 2 * N ≤ (2 * m1 + 1) * (D * 2 ^ n)).
  { unfold m1. destruct mrs as [m r s]. cbn [shr_m shr_r shr_s] in *.
    destruct r, s; cbn [loc_of_shr_record round_nearest_even].
    - split; [by right|]. nia.
    - destruct (Z.even _).
      + split; [by left|]. apply Hmid. by intros [_ ?].
      + split; [by right|]. nia.
    - split; [by left|]. apply Hmid. by intros [? _].
    - split; [by left|]. apply Hmid. by intros [? _]. }
  destruct Hm1 as [Hm1 Hnear].
  exists n, m0, m1. split; [done|]. split; [done|]. split; [done|].
  split; [done|]. split; [done|]. split; [done|]. split; [done|].
  clearbody m1. unfold round_result.
  destruct (Z.eqb_spec m1 0) as [->|Hnz].
  { unfold shr_fexp. cbn [Zdigits2]. rewrite shr_nonpos; [done|].
    rewrite fexp32. lia. }
  destruct (Z.ltb_spec m1 (2 ^ 24)) as [Hsmall|Hbig].
  - assert (H1 : 0 < m1) by lia.
    pose proof (Zdigits2_lower m1 H1) as Hlow.
    assert (Hd1 : Zdigits2 m1 ≤ 24).
    { destruct (Z_le_gt_dec (Zdigits2 m1) 24) as [|Hgt]; [done|].
      pose proof (Z.pow_le_mono_r 2 24 (Zdigits2 m1 - 1) ltac:(lia) ltac:(lia)). lia. }
    unfold shr_fexp. rewrite shr_nonpos by (rewrite fexp32; lia).
    destruct m1 as [|p|p]; [lia| |lia]. cbn [shr_record_of_loc shr_m Z.to_pos].
    done.
  - assert (m1 = 2 ^ 24) as -> by lia.
    unfold shr_fexp.
    replace (fexp 24 128 (Zdigits2 (2 ^ 24) + e1) - e1) with 1
      by (rewrite fexp32; change (Zdigits2 (2 ^ 24)) with 25; lia).
    cbn. done.
Qed.

(** *** Real values of mantissa-exponent pairs *)

Lemma bpow_pos (e : Z) : (0 < bpow e)%R.
Proof. apply powerRZ_lt. lra. Qed.

Lemma bpow_add (a b : Z) : (bpow (a + b) = bpow a * bpow b)%R.
Proof. apply powerRZ_add. lra. Qed.

Lemma bpow_IZR (k : Z) : 0 ≤ k → (IZR (2 ^ k) = bpow k)%R.
Proof.
  intros Hk. unfold bpow. rewrite <- (Z2Nat.id k Hk) at 1.
  rewrite <- pow_IZR. rewrite <- (Z2Nat.id k Hk) at 2.
  by rewrite <- pow_powerRZ.
Qed.

Lemma bpow_le (a b : Z) : a ≤ b → (bpow a <= bpow b)%R.
Proof.
  intros H. replace b with (a + (b - a)) by lia. rewrite bpow_add.
  rewrite <- (bpow_IZR (b - a)) by lia.
  assert (1 <= IZR (2 ^ (b - a)))%R.
  { apply (IZR_le 1). pose proof (Z.pow_pos_nonneg 2 (b - a)). lia. }
  pose proof (bpow_pos a). nra.
Qed.

Lemma bpow_m24 : (bpow (-24) = / 16777216)%R.
Proof. unfold bpow, powerRZ. simpl. f_equal. lra. Qed.

Lemma bpow_m25 : (bpow (-25) = / 33554432)%R.
Proof. unfold bpow, powerRZ. simpl. f_equal. lra. Qed.

Lemma bpow_m23 : (bpow (-23) = / 8388608)%R.
Proof. unfold bpow, powerRZ. simpl. f_equal. lra. Qed.

Lemma bpow_1 : (bpow 1 = 2)%R.
Proof. unfold bpow, powerRZ. simpl. lra. Qed.

Lemma bpow_0 : (bpow 0 = 1)%R.
Proof. reflexivity. Qed.

Lemma F2R_mono_m (m m' e : Z) : m ≤ m' → (F2R m e <= F2R m' e)%R.
Proof.
  intros H. unfold F2R. apply Rmult_le_compat_r; [apply Rlt_le, bpow_pos|].
  by apply IZR_le.
Qed.

(** Truncating to the format keeps a value that is at least 1 - 2^-24 at
    least 1 - 2^-24. *)
Lemma truncation_ge_b1 (mx ex n : Z) :
  0 < mx → 0 ≤ n →
  (n = 0 ∨ ex + n = fexp 24 128 (Zdigits2 mx + ex)) →
  (b1R <= F2R mx ex)%R →
  (b1R <= F2R (mx / 2 ^ n) (ex + n))%R.
Proof.
  intros Hm Hn Hcan HX.
  destruct (decide (n = 0)) as [->|Hn0].
  { rewrite Z.pow_0_r, Z.div_1_r. by replace (ex + 0) with ex by lia. }
  destruct Hcan as [?|He1]; [done|]. rewrite fexp32 in He1.
  set (e1 := ex + n) in *.
  destruct (Z_le_gt_dec e1 (-24)) as [Hlow|Hhigh].
  - (* the bound is on the grid of the result *)
    set (K := 16777215 * 2 ^ (-24 - e1)).
    assert (HK : (b1R = F2R K e1)%R).
    { unfold b1R, F2R, K. rewrite mult_IZR, bpow_IZR by lia.
      rewrite Rmult_assoc, <- bpow_add. do 2 f_equal. lia. }
    rewrite HK. apply F2R_mono_m. apply Z.div_le_lower_bound; [lia|].
    apply le_IZR. rewrite mult_IZR, bpow_IZR by lia.
    rewrite HK in HX. unfold F2R in HX.
    assert (Hb : (bpow e1 = bpow n * bpow ex)%R).
    { rewrite <- bpow_add. f_equal. lia. }
    rewrite Hb in HX. pose proof (bpow_pos ex). pose proof (bpow_pos n).
    nra.
  - (* the result has 24 digits and is at least 1 *)
    assert (Hn' : n = Zdigits2 mx - 24) by lia.
    pose proof (Zdigits2_lower mx Hm) as Hl.
    assert (H23 : 2 ^ 23 ≤ mx / 2 ^ n).
    { apply Z.div_le_lower_bound; [lia|].
      rewrite <- Z.pow_add_r by lia.
      replace (n + 23) with (Zdigits2 mx - 1) by lia. done. }
    apply Rle_trans with (F2R (2 ^ 23) e1); [|by apply F2R_mono_m].
    unfold b1R, F2R. rewrite bpow_m24.
    pose proof (bpow_le (-23) e1 ltac:(lia)) as Hb. rewrite bpow_m23 in Hb.
    change (IZR (2 ^ 23)) with 8388608%R. lra.
Qed.

(** A rounded result whose value is at least 1 - 2^-24 compares as such. *)
Lemma round_result_ge_b1 (m1 e1 : Z) :
  0 ≤ m1 ≤ 2 ^ 24 → (b1R <= F2R m1 e1)%R →
  SFleb f32_below_one (round_result m1 e1) = true.
Proof.
  intros Hm HX. unfold b1R, F2R in HX. rewrite bpow_m24 in HX.
  assert (He : -24 ≤ e1).
  { destruct (Z_le_gt_dec (-24) e1) as [|Hlt]; [done|]. exfalso.
    pose proof (bpow_le e1 (-25) ltac:(lia)) as Hb. rewrite bpow_m25 in Hb.
    pose proof (bpow_pos e1).
    assert (IZR m1 <= 16777216)%R by (apply (IZR_le m1 (2 ^ 24)); lia).
    assert (0 <= IZR m1)%R by (apply (IZR_le 0 m1); lia).
    nra. }
  unfold round_result.
  destruct (Z.eqb_spec m1 0) as [->|Hnz].
  { exfalso. lra. }
  destruct (Z.ltb_spec m1 (2 ^ 24)) as [Hsmall|Hbig].
  - destruct (e1 <=? 104); [|done].
    destruct m1 as [|p|p]; [lia| |lia]. cbn [Z.to_pos].
    apply SFleb_finite_pos.
    destruct (Z_lt_le_dec (-24) e1) as [?|He']; [by left|]. right.
    assert (e1 = -24) as -> by lia. split; [done|].
    destruct (Z_le_gt_dec 16777215 (Z.pos p)) as [|Hgt]; [done|]. exfalso.
    rewrite bpow_m24 in HX.
    assert (IZR (Z.pos p) <= 16777214)%R by (apply IZR_le; lia). lra.
  - destruct (e1 + 1 <=? 104); [|done].
    apply SFleb_finite_pos. left. lia.
Qed.

(** A product of positive finite numbers whose exact value is at least
    1 - 2^-24 rounds to a float that is at least 1 - 2^-24. *)
Lemma mul_ge_b1 (mp mi : positive) (ep ei : Z) :
  (b1R <= F2R (Z.pos mp) ep * F2R (Z.pos mi) ei)%R →
  SFleb f32_below_one
    (SFmul 24 128 (S754_finite false mp ep) (S754_finite false mi ei)) = true.
Proof.
  intros HX. cbn [SFmul xorb].
  assert (HX' : (b1R <= F2R (Z.pos (mp * mi)) (ep + ei))%R).
  { unfold F2R in *. rewrite Pos2Z.inj_mul, mult_IZR, bpow_add. lra. }
  destruct (binary_round_aux_spec (Z.pos (mp * mi)) (ep + ei) loc_Exact
              (Z.pos (mp * mi)) 1) as (n & m0 & m1 & Hn & Hm0 & Hr0 & Hm1 & He & Hcan & _ & ->);
    [lia|unfold located_at, located; cbn; lia|].
  apply round_result_ge_b1; [lia|].
  apply Rle_trans with (F2R m0 (ep + ei + n)); [|apply F2R_mono_m; lia].
  rewrite Hm0. apply truncation_ge_b1; [lia|done|done|done].
Qed.

(** *** Division *)

Lemma new_location_located (mc q r : Z) :
  0 < mc → 0 ≤ r < mc →
  located_at q (new_location mc r) (q * mc + r) mc.
Proof.
  intros Hmc Hr. unfold located_at, located, new_location,
    new_location_even, new_location_odd.
  destruct (Z.even mc); destruct (Z.eqb_spec r 0) as [->|Hr0]; cbn;
    try (split_and!; intros; lia).
  - destruct (Z.compare_spec (2 * r) mc); cbn; split_and!; intros; try lia;
      exfalso; naive_solver.
  - destruct (Z.compare_spec (2 * r + 1) mc); cbn; split_and!; intros; try lia;
      exfalso; naive_solver.
Qed.

(** 1 / c is the rounding of the quotient of 2^(23+s) by the mantissa of c. *)
Lemma SFdiv_one_spec (mc : positive) (ec : Z) :
  ∃ s q r, 0 ≤ s ∧ 2 ^ (23 + s) = q * Z.pos mc + r ∧ 0 ≤ r < Z.pos mc ∧
    SFdiv 24 128 (S754_finite false 8388608 (-23)) (S754_finite false mc ec) =
      binary_round_aux 24 128 false q (-23 - ec - s) (new_location (Z.pos mc) r).
Proof.
  unfold SFdiv, SFdiv_core_binary.
  set (e' := Z.min _ _).
  set (s := -23 - ec - e').
  assert (Hs : 0 ≤ s) by (unfold s, e'; lia).
  set (m' := match s with Z.pos _ => _ | Z0 => _ | Z.neg _ => _ end).
  assert (Hm' : m' = 2 ^ (23 + s)).
  { unfold m'. destruct s as [|p|p]; [done| |lia].
    rewrite Z.shiftl_mul_pow2 by lia. rewrite Z.pow_add_r by lia. done. }
  pose proof (Z_div_mod m' (Z.pos mc) ltac:(lia)) as Hdm.
  destruct (Z.div_eucl m' (Z.pos mc)) as [q r]. destruct Hdm as [Heq Hr].
  exists s, q, r. split_and!; [done|lia|lia|lia|].
  cbn [xorb]. f_equal. unfold s. lia.
Qed.

(** When 1 / c is a normal number, c * fl(1 / c) >= 2^24 / (2^24 + 1). *)
Lemma div_one_normal (mc mi : positive) (ec ei : Z) :
  SFdiv 24 128 (S754_finite false 8388608 (-23)) (S754_finite false mc ec) = S754_finite false mi ei →
  2 ^ 23 ≤ Z.pos mi →
  (16777216 <= F2R (Z.pos mc) ec * F2R (Z.pos mi) ei * 16777217)%R.
Proof.
  intros Hdiv Hnorm.
  destruct (SFdiv_one_spec mc ec) as (s & q & r & Hs & Heq & Hr & Hd).
  rewrite Hd in Hdiv. clear Hd.
  assert (Hq : 0 ≤ q) by nia.
  destruct (binary_round_aux_spec q (-23 - ec - s) (new_location (Z.pos mc) r)
              (2 ^ (23 + s)) (Z.pos mc))
    as (n & m0 & m1 & Hn & Hm0 & Hr0 & Hm1 & He & Hcan & Hnear & Hres);
    [done|rewrite Heq; apply new_location_located; lia|].
  rewrite Hres in Hdiv. clear Hres.
  set (e1 := -23 - ec - s + n) in *.
  assert (Hv : F2R (Z.pos mi) ei = F2R m1 e1 ∧ 2 ^ 23 ≤ m1).
  { unfold round_result in Hdiv.
    destruct (Z.eqb_spec m1 0); [done|].
    destruct (Z.ltb_spec m1 (2 ^ 24)).
    - destruct (e1 <=? 104); [|done]. injection Hdiv as <- <-.
      rewrite Z2Pos.id in * by lia. done.
    - destruct (e1 + 1 <=? 104); [|done]. injection Hdiv as <- <-.
      assert (m1 = 2 ^ 24) as -> by lia. split; [|lia].
      unfold F2R. rewrite bpow_add, bpow_1.
      change (IZR (2 ^ 24)) with 16777216%R. lra. }
  destruct Hv as [-> H23].
  unfold F2R.
  assert (Hb : (bpow ec * bpow e1 * IZR (2 ^ (23 + s)) = IZR (2 ^ n))%R).
  { rewrite !bpow_IZR by lia. rewrite <- !bpow_add. f_equal. unfold e1. lia. }
  apply IZR_le in Hnear. rewrite !mult_IZR, plus_IZR, mult_IZR in Hnear.
  change (IZR 2) with 2%R in Hnear. change (IZR 1) with 1%R in Hnear.
  assert (HB : (0 < IZR (2 ^ (23 + s)))%R).
  { apply (IZR_lt 0). apply Z.pow_pos_nonneg; lia. }
  assert (HW : (0 < IZR (Z.pos mc) * IZR (2 ^ n))%R).
  { apply Rmult_lt_0_compat; apply (IZR_lt 0); [lia|].
    apply Z.pow_pos_nonneg; lia. }
  assert (H23' : (8388608 <= IZR m1)%R) by (apply (IZR_le (2 ^ 23)); done).
  set (B := IZR (2 ^ (23 + s))) in *.
  set (W := (IZR (Z.pos mc) * IZR (2 ^ n))%R) in *.
  assert (HP : (0 <= (IZR m1 - 8388608) * W)%R) by (apply Rmult_le_pos; lra).
  assert (HA : (16777216 * B <= 16777217 * (IZR m1 * W))%R) by lra.
  apply Rmult_le_reg_r with B; [done|].
  replace (IZR (Z.pos mc) * bpow ec * (IZR m1 * bpow e1) * 16777217 * B)%R
    with (16777217 * (IZR m1 * (IZR (Z.pos mc) * (bpow ec * bpow e1 * B))))%R by ring.
  rewrite Hb. fold W. lra.
Qed.

(** *** Order of canonical values *)

Lemma canonical_exp (m : positive) (e : Z) :
  valid_binary 24 128 (S754_finite false m e) = true →
  e = Z.max (Z.pos (digits2_pos m) + e - 24) (-149).
Proof.
  cbn [valid_binary]. unfold bounded, canonical_mantissa.
  intros [H _]%andb_prop. apply Z.eqb_eq in H. rewrite fexp32 in H. lia.
Qed.

(** On canonical numbers the comparison is the order of the values. *)
Lemma SFleb_value (mc mp : positive) (ec ep : Z) :
  valid_binary 24 128 (S754_finite false mc ec) = true →
  valid_binary 24 128 (S754_finite false mp ep) = true →
  SFleb (S754_finite false mc ec) (S754_finite false mp ep) = true →
  (F2R (Z.pos mc) ec <= F2R (Z.pos mp) ep)%R.
Proof.
  intros Hc%canonical_exp Hp%canonical_exp Hle.
  pose proof (digits2_pos_bounds mc) as [_ Hcu].
  pose proof (digits2_pos_bounds mp) as [Hpl _].
  unfold SFleb, SFcompare in Hle.
  destruct (Z.compare_spec ec ep) as [->|Hlt|Hgt]; [| |done].
  - rewrite Pos.compare_cont_spec in Hle. unfold Pos.switch_Eq in Hle.
    apply F2R_mono_m.
    destruct (Pos.compare_spec mc mp); [lia|lia|done].
  - assert (Hdp : Z.pos (digits2_pos mp) = 24) by lia.
    assert (Hdc : Z.pos (digits2_pos mc) ≤ 24) by lia.
    rewrite Hdp in Hpl.
    assert (Z.pos mc < 2 ^ 24).
    { eapply Z.lt_le_trans; [exact Hcu|]. apply Z.pow_le_mono_r; lia. }
    unfold F2R.
    pose proof (bpow_le (ec + 1) ep ltac:(lia)) as Hb.
    rewrite bpow_add, bpow_1 in Hb.
    pose proof (bpow_pos ec). pose proof (bpow_pos ep).
    assert (IZR (Z.pos mc) <= 16777216)%R by (apply (IZR_le _ (2 ^ 24)); lia).
    assert (8388608 <= IZR (Z.pos mp))%R by (apply (IZR_le (2 ^ 23)); lia).
    nra.
Qed.

(** A binary32 value below 1 is at most 1 - 2^-24. *)
Lemma below_one_le_b1 (u : spec_float) :
  valid_binary 24 128 u = true →
  SFltb u (S754_finite false 8388608 (-23)) = true →
  SFleb u f32_below_one = true.
Proof.
  intros Hv Hlt. destruct u as [[]|[]| |[] m e]; try done.
  pose proof (canonical_exp m e Hv) as Hc.
  pose proof (digits2_pos_bounds m) as [Hl Hu].
  apply SFltb_finite_pos in Hlt. apply SFleb_finite_pos.
  destruct (Z_lt_le_dec e (-24)) as [?|He]; [by left|]. right.
  assert (Hd : Z.pos (digits2_pos m) = 24) by lia.
  rewrite Hd in Hl, Hu. lia.
Qed.

(** The acceptance comparison of a step whose cache holds the reciprocal of a
    positive density c: when the density p at the proposal is not below c, the
    reciprocal is a normal number or +infinity, and the draw u is below 1,
    the comparison p * (1 / c) >= u holds.  The reciprocal is within half a
    unit in the last place of 1 / c, so c * fl(1 / c) is at least
    2^24 / (2^24 + 1); the rounded product with p is then at least 1 - 2^-24,
    the largest binary32 value below 1. *)
Lemma ratio_ge_draw (c p u : float) :
  valid_binary F32.prec F32.emax c = true →
  valid_binary F32.prec F32.emax p = true →
  valid_binary F32.prec F32.emax u = true →
  F32.ltb F32.zero c = true →
  F32.geb p c = true →
  F32.ltb u F32.one = true →
  F32.normal_or_pinf (F32.div F32.one c) = true →
  F32.geb (F32.mul p (F32.div F32.one c)) u = true.
Proof.
  rewrite one_eq.
  unfold F32.ltb, F32.geb, F32.mul, F32.div, F32.normal_or_pinf, F32.zero,
    F32.prec, F32.emax.
  intros Hvc Hvp Hvu Hc Hcp Hu Hinv.
  pose proof (below_one_le_b1 u Hvu Hu) as Hub.
  assert (Hnan : SFleb u (S754_infinity false) = true).
  { by destruct u as [|[]| |]. }
  destruct c as [[]|[]| |[] mc ec]; try done.
  destruct (SFdiv 24 128 (S754_finite false 8388608 (-23)) (S754_finite false mc ec))
    as [[]|[]| |si mi ei] eqn:Hdiv; try done.
  - (* the reciprocal overflows *)
    by destruct p as [[]|[]| |[] mp ep].
  - cbn [SFclassify] in Hinv.
    destruct (Z.eqb_spec (Z.pos (digits2_pos mi)) 24) as [Hd|];
      destruct si; try done.
    pose proof (digits2_pos_bounds mi) as [Hl _]. rewrite Hd in Hl.
    destruct p as [[]|[]| |[] mp ep]; try done.
    eapply SFleb_trans_pos; [|exact Hub].
    apply mul_ge_b1.
    pose proof (div_one_normal mc mi ec ei Hdiv Hl) as Hci.
    pose proof (SFleb_value mc mp ec ep Hvc Hvp Hcp) as Hv.
    assert (0 < F2R (Z.pos mi) ei)%R.
    { unfold F2R. apply Rmult_lt_0_compat; [by apply (IZR_lt 0)|apply bpow_pos]. }
    assert (0 < F2R (Z.pos mc) ec)%R.
    { unfold F2R. apply Rmult_lt_0_compat; [by apply (IZR_lt 0)|apply bpow_pos]. }
    unfold b1R, F2R at 1. rewrite bpow_m24.
    assert (F2R (Z.pos mc) ec * F2R (Z.pos mi) ei
            <= F2R (Z.pos mp) ep * F2R (Z.pos mi) ei)%R by nra.
    lra.
Qed.

Section MetropolisProperties.
Context {curandStateXORWOW : Type} `{!Curand curandStateXORWOW}.

Implicit Types (pdf : PDF) (rs randState : curandStateXORWOW).

(** ** One Metropolis-Hastings step *)

(** C1. One call of MetropolisHastingsStep draws a normal value z and then a
    uniform value u from the stream, forms the proposal
    prevSample + stepSize * z, evaluates the density there, and compares
    nextPDF * invPrevPDF with u: when the product is >= u the sample becomes
    the proposal and the cached inverse becomes 1 / nextPDF, otherwise both
    keep their values. *)
Theorem MetropolisHastingsStep_spec pdf (prevSample invPrevPDF stepSize : float)
    randState :
  ∃ z rs1 u rs2,
    curand_normal randState = (z, rs1) ∧
    curand_uniform rs1 = (u, rs2) ∧
    let nextSample := F32.add prevSample (F32.mul stepSize z) in
    let nextPDF := pdf nextSample in
    MetropolisHastingsStep pdf prevSample invPrevPDF stepSize randState =
      if F32.geb (F32.mul nextPDF invPrevPDF) u
      then (nextSample, F32.div F32.one nextPDF, rs2)
      else (prevSample, invPrevPDF, rs2).
Proof.
  unfold MetropolisHastingsStep.
  destruct (curand_normal randState) as [z rs1] eqn:Ez.
  destruct (curand_uniform rs1) as [u rs2] eqn:Eu.
  by exists z, rs1, u, rs2.
Qed.

(** C3 (amended). With the cache holding 1 / pdf(prevSample) for a positive
    density pdf(prevSample), and a density at the proposal that is not below
    it, the step accepts for every normal draw and every uniform draw below 1,
    provided the cached reciprocal is a normal number or +infinity (and the
    densities and the draw are binary32 values): the sample becomes the
    proposal and the cache 1 / nextPDF. *)
Theorem accepts_when_density_not_lower pdf (prevSample stepSize : float)
    randState z rs1 u rs2 :
  curand_normal randState = (z, rs1) →
  curand_uniform rs1 = (u, rs2) →
  let invPrevPDF := F32.div F32.one (pdf prevSample) in
  let nextSample := F32.add prevSample (F32.mul stepSize z) in
  valid_binary F32.prec F32.emax (pdf prevSample) = true →
  valid_binary F32.prec F32.emax (pdf nextSample) = true →
  valid_binary F32.prec F32.emax u = true →
  F32.ltb F32.zero (pdf prevSample) = true →
  F32.geb (pdf nextSample) (pdf prevSample) = true →
  F32.normal_or_pinf invPrevPDF = true →
  F32.ltb u F32.one = true →
  MetropolisHastingsStep pdf prevSample invPrevPDF stepSize randState =
    (nextSample, F32.div F32.one (pdf nextSample), rs2).
Proof.
  intros Ez Eu inv next Hvc Hvp Hvu Hc Hcp Hinv Hu.
  pose proof (ratio_ge_draw _ _ _ Hvc Hvp Hvu Hc Hcp Hu Hinv) as Hacc.
  unfold MetropolisHastingsStep. rewrite Ez, Eu.
  unfold inv, next in *. by rewrite Hacc.
Qed.

(** C9 (amended). A density that evaluates to a zero of sign s at the current
    sample gives the cached inverse the infinity of sign s.  With the cache at
    +infinity, the step accepts every proposal of positive density, whatever
    the (non-NaN) uniform draw; a proposal whose density is zero makes the
    ratio a NaN and is rejected, the sample and the cache staying as they
    were. *)
Theorem zero_density_step pdf (prevSample stepSize : float) randState
    z rs1 u rs2 (s : bool) :
  curand_normal randState = (z, rs1) →
  curand_uniform rs1 = (u, rs2) →
  pdf prevSample = S754_zero s →
  let invPrevPDF := F32.div F32.one (pdf prevSample) in
  let nextSample := F32.add prevSample (F32.mul stepSize z) in
  invPrevPDF = S754_infinity s ∧
  (s = false → F32.ltb F32.zero (pdf nextSample) = true → F32.is_nan u = false →
     MetropolisHastingsStep pdf prevSample invPrevPDF stepSize randState =
       (nextSample, F32.div F32.one (pdf nextSample), rs2)) ∧
  (s = false → (∃ s', pdf nextSample = S754_zero s') →
     MetropolisHastingsStep pdf prevSample invPrevPDF stepSize randState =
       (prevSample, invPrevPDF, rs2)).
Proof.
  intros Ez Eu Hz inv next.
  assert (Hinv : inv = S754_infinity s) by (unfold inv; by rewrite Hz, div_one_zero).
  split; [done|]. unfold MetropolisHastingsStep. rewrite Ez, Eu. fold next.
  rewrite Hinv. split.
  - intros -> Hpos Hu. change (S754_infinity false) with F32.pinf.
    by rewrite mul_pos_pinf, geb_pinf.
  - intros -> [s' Hs']. rewrite Hs'. change (S754_infinity false) with F32.pinf.
    by rewrite mul_zero_pinf, geb_nan.
Qed.

End MetropolisProperties.

(** C3, as stated, fails: the density is f32_big at the current sample and at
    the proposal, the cache is 1 / f32_big, the uniform draw is below 1, and
    the step rejects. *)
Lemma accept_fails_on_rounded_reciprocal :
  let pdf := const_pdf f32_big in
  let prevSample := F32.zero in
  let invPrevPDF := F32.div F32.one (pdf prevSample) in
  let nextSample := F32.add prevSample (F32.mul F32.one F32.one) in
  valid_binary F32.prec F32.emax f32_big = true ∧
  F32.ltb F32.zero (pdf prevSample) = true ∧
  F32.geb (pdf nextSample) (pdf prevSample) = true ∧
  F32.ltb f32_below_one F32.one = true ∧
  MetropolisHastingsStep pdf prevSample invPrevPDF F32.one
    [F32.one; f32_below_one] = (prevSample, invPrevPDF, []) ∧
  nextSample ≠ prevSample.
Proof. vm_compute. repeat split; discriminate. Qed.

(** A reciprocal in the normal range still loses to the uniform draw 1, which
    curand_uniform can return: 41 * (1 / 41) is 1 - 2^-24 in binary32. *)
Example accept_fails_at_41 :
  let pdf := const_pdf (F32.of_int 41) in
  let invPrevPDF := F32.div F32.one (pdf F32.zero) in
  F32.mul (pdf F32.one) invPrevPDF = f32_below_one ∧
  MetropolisHastingsStep pdf F32.zero invPrevPDF F32.one [F32.one; F32.one]
    = (F32.zero, invPrevPDF, []).
Proof. vm_compute. done. Qed.

Lemma accepts_when_density_not_lower_witness :
  let pdf := const_pdf (F32.of_int 41) in
  MetropolisHastingsStep pdf F32.zero (F32.div F32.one (pdf F32.zero)) F32.one
    [F32.one; f32_below_one] = (F32.one, F32.div F32.one (pdf F32.one), []).
Proof.
  apply (accepts_when_density_not_lower (const_pdf (F32.of_int 41)) F32.zero
           F32.one [F32.one; f32_below_one] F32.one [f32_below_one]
           f32_below_one []);
    reflexivity.
Defined.

(** C9, as stated, fails: the density is zero at the current sample 0 and at
    the proposal 1; the cache is +infinity and the step rejects. *)
Lemma zero_density_can_reject :
  let prevSample := F32.zero in
  let invPrevPDF := F32.div F32.one (shelf_pdf prevSample) in
  let nextSample := F32.add prevSample (F32.mul F32.one F32.one) in
  shelf_pdf prevSample = F32.zero ∧ invPrevPDF = F32.pinf ∧
  MetropolisHastingsStep shelf_pdf prevSample invPrevPDF F32.one
    [F32.one; f32_half] = (prevSample, invPrevPDF, []) ∧
  nextSample ≠ prevSample.
Proof. vm_compute. repeat split; discriminate. Qed.

Lemma zero_density_step_witness :
  let invPrevPDF := F32.div F32.one (shelf_pdf F32.zero) in
  invPrevPDF = F32.pinf ∧
  MetropolisHastingsStep shelf_pdf F32.zero invPrevPDF F32.one
    [F32.of_int 6; f32_half] = (F32.of_int 6, F32.one, []) ∧
  MetropolisHastingsStep shelf_pdf F32.zero invPrevPDF F32.one
    [F32.one; f32_half] = (F32.zero, invPrevPDF, []).
Proof.
  destruct (zero_density_step shelf_pdf F32.zero F32.one [F32.of_int 6; f32_half]
              (F32.of_int 6) [f32_half] f32_half [] false) as (H1 & H2 & _);
    [reflexivity..|].
  destruct (zero_density_step shelf_pdf F32.zero F32.one [F32.one; f32_half]
              F32.one [f32_half] f32_half [] false) as (_ & _ & H3);
    [reflexivity..|].
  split; [exact H1|]. split.
  - apply H2; reflexivity.
  - apply H3; [reflexivity|]. exists false. reflexivity.
Defined.

(** ** Writing one lane's slots *)

(** The loop that stores [val n] into slot [totalThreads * n + threadId] for
    every dimension [n]: it succeeds, writes those slots and no other. *)
Lemma lane_store_loop (totalThreads nNucleons threadId : Z)
    (val : Z → option float) (a : list float) :
  0 ≤ threadId < totalThreads → 0 ≤ nNucleons →
  totalThreads * nNucleons ≤ INT_MAX →
  totalThreads * nNucleons ≤ Z.of_nat (length a) →
  (∀ n, 0 ≤ n < nNucleons → is_Some (val n)) →
  ∃ a',
    for_loop 0 nNucleons
      (λ n a, i ← flat_index totalThreads n threadId; v ← val n; store a i v) a
      = Some a' ∧
    length a' = length a ∧
    (∀ n, 0 ≤ n < nNucleons →
          a' !! Z.to_nat (totalThreads * n + threadId) = val n) ∧
    (∀ j : nat, (∀ n, 0 ≤ n < nNucleons →
                      j ≠ Z.to_nat (totalThreads * n + threadId)) →
                a' !! j = a !! j).
Proof.
  intros Ht HnN Hmax Hlen Hval.
  pose (I := λ (k : Z) (a' : list float),
    length a' = length a ∧
    (∀ n, 0 ≤ n < k → a' !! Z.to_nat (totalThreads * n + threadId) = val n) ∧
    (∀ j : nat, (∀ n, 0 ≤ n < k → j ≠ Z.to_nat (totalThreads * n + threadId)) →
                a' !! j = a !! j)).
  apply (for_loop_inv I); [done| |].
  - split; [done|]. split; [intros; lia | done].
  - intros k x Hk (Hl & Hin & Hout).
    rewrite flat_index_Some by (try lia; nia). cbn.
    destruct (Hval k) as [v Hv]; [done|]. rewrite Hv. cbn.
    assert (0 ≤ totalThreads * k + threadId < Z.of_nat (length x)) by (rewrite Hl; nia).
    rewrite store_Some by done.
    eexists; split; [done|]. repeat split.
    + by rewrite length_insert.
    + intros n Hn. destruct (decide (n = k)) as [->|Hne].
      * rewrite list_lookup_insert_eq by lia. done.
      * rewrite list_lookup_insert_ne; [apply Hin; lia|].
        intros E. apply Z2Nat.inj in E; [|nia..].
        apply flat_index_inj in E; [|done..]. lia.
    + intros j Hj. rewrite list_lookup_insert_ne.
      * apply Hout. intros n Hn. apply Hj. lia.
      * intros E. by apply (Hj k); [lia|].
Qed.

Lemma InitSampleArray_lane (initSample nNucleons totalThreads threadId : Z)
    (prevSample : list float) :
  0 ≤ threadId < totalThreads → 0 ≤ nNucleons →
  totalThreads * nNucleons ≤ INT_MAX →
  totalThreads * nNucleons ≤ Z.of_nat (length prevSample) →
  ∃ a',
    InitSampleArray initSample nNucleons totalThreads threadId prevSample = Some a' ∧
    length a' = length prevSample ∧
    (∀ n, 0 ≤ n < nNucleons →
          a' !! Z.to_nat (totalThreads * n + threadId) = Some (F32.of_int initSample)) ∧
    (∀ j : nat, (∀ n, 0 ≤ n < nNucleons →
                      j ≠ Z.to_nat (totalThreads * n + threadId)) →
                a' !! j = prevSample !! j).
Proof.
  intros Ht HnN Hmax Hlen.
  by apply (lane_store_loop totalThreads nNucleons threadId
              (λ _, Some (F32.of_int initSample)) prevSample).
Qed.

(** C2 (amended). For every int initial value, launching InitSampleArray on
    all lanes writes the float conversion of that int into every
    (dimension, lane) slot of the sample array, that is into every slot of an
    array of nNucleons * totalThreads cells. *)
Theorem InitSampleArray_fills (initSample nNucleons totalThreads : Z)
    (prevSample : list float) :
  0 ≤ nNucleons → 0 ≤ totalThreads →
  totalThreads * nNucleons ≤ INT_MAX →
  Z.of_nat (length prevSample) = totalThreads * nNucleons →
  ∃ a',
    launch totalThreads (InitSampleArray initSample nNucleons totalThreads)
      prevSample = Some a' ∧
    (∀ n t, 0 ≤ n < nNucleons → 0 ≤ t < totalThreads →
            load a' (totalThreads * n + t) = Some (F32.of_int initSample)) ∧
    a' = replicate (length prevSample) (F32.of_int initSample).
Proof.
  intros HnN HT Hmax Hlen.
  pose (v := F32.of_int initSample).
  pose (I := λ (k : Z) (a' : list float),
    length a' = length prevSample ∧
    ∀ n t, 0 ≤ n < nNucleons → 0 ≤ t < k →
           a' !! Z.to_nat (totalThreads * n + t) = Some v).
  destruct (for_loop_inv I (InitSampleArray initSample nNucleons totalThreads)
              0 totalThreads prevSample) as (a' & Hrun & Hl & Hall); [done| |..].
  - split; [done|]. intros; lia.
  - intros k x Hk (Hl & Hin).
    destruct (InitSampleArray_lane initSample nNucleons totalThreads k x)
      as (x' & Hx' & Hl' & Hmine & Hother); [lia..|].
    exists x'. split; [done|]. split; [congruence|].
    intros n t Hn Ht. destruct (decide (t = k)) as [->|Hne]; [by apply Hmine|].
    rewrite Hother; [apply Hin; lia|].
    intros n' Hn' E. apply Z2Nat.inj in E; [|nia..].
    apply flat_index_inj in E; lia.
  - assert (Hslot : ∀ n t, 0 ≤ n < nNucleons → 0 ≤ t < totalThreads →
              a' !! Z.to_nat (totalThreads * n + t) = Some v) by done.
    exists a'. split; [done|]. split.
    + intros n t Hn Ht. apply load_Some. split; [nia|]. by apply Hslot.
    + apply list_eq. intros j. rewrite <- Hl.
      destruct (decide (j < length a')%nat) as [Hj|Hj].
      * rewrite lookup_replicate_2 by done.
        assert (0 < totalThreads) by nia.
        pose proof (Z.div_mod (Z.of_nat j) totalThreads ltac:(lia)) as Hdm.
        pose proof (Z.mod_pos_bound (Z.of_nat j) totalThreads ltac:(lia)).
        assert (0 ≤ Z.of_nat j `div` totalThreads < nNucleons).
        { split; [apply Z.div_pos; lia|]. apply Z.div_lt_upper_bound; lia. }
        rewrite <- (Nat2Z.id j), Hdm. by apply Hslot.
      * rewrite lookup_ge_None_2 by lia.
        symmetry. apply lookup_replicate_None. lia.
Qed.

(** C2, as stated, fails: called with the float 0.5 for one dimension and one
    lane, the kernel leaves 0 in the slot. *)
Lemma InitSampleArray_truncates_half :
  launch 1 (InitSampleArray_float_arg f32_half 1 1) [F32.one] = Some [F32.zero] ∧
  F32.zero ≠ f32_half.
Proof. split; [reflexivity|discriminate]. Qed.

(** The int -> float conversion itself rounds above 2^24. *)
Example InitSampleArray_rounds_large :
  launch 1 (InitSampleArray 16777217 1 1) [F32.zero] = Some [F32.of_int 16777216].
Proof. reflexivity. Qed.

Lemma InitSampleArray_fills_witness :
  ∃ a', launch 2 (InitSampleArray 3 2 2) [F32.zero; F32.zero; F32.zero; F32.zero]
          = Some a' ∧
        (∀ n t, 0 ≤ n < 2 → 0 ≤ t < 2 → load a' (2 * n + t) = Some (F32.of_int 3)) ∧
        a' = replicate 4 (F32.of_int 3).
Proof.
  apply (InitSampleArray_fills 3 2 2 [F32.zero; F32.zero; F32.zero; F32.zero]);
    [lia | lia | unfold INT_MAX; lia | reflexivity].
Defined.

(** ** Lane-local arrays *)

Lemma wr_Some (a : local_array) (i : Z) (v : float) :
  0 ≤ i < Z.of_nat (length a) → wr a i v = Some (<[Z.to_nat i := Some v]> a).
Proof. apply store_Some. Qed.

Lemma rd_insert_eq (a : local_array) (i : Z) (v : float) :
  0 ≤ i < Z.of_nat (length a) → rd (<[Z.to_nat i := Some v]> a) i = Some v.
Proof. intros H. apply rd_Some. split; [lia|]. apply list_lookup_insert_eq. lia. Qed.

Lemma rd_insert_ne (a : local_array) (i j : Z) (c : option float) :
  0 ≤ i → 0 ≤ j → i ≠ j → rd (<[Z.to_nat i := c]> a) j = rd a j.
Proof.
  intros Hi Hj Hne. unfold rd, load. destruct (0 <=? j); [|done].
  rewrite list_lookup_insert_ne; [done|]. intros E. apply Z2Nat.inj in E; lia.
Qed.

Lemma rd_lt (a : local_array) (i : Z) :
  is_Some (rd a i) → 0 ≤ i < Z.of_nat (length a).
Proof.
  intros [v H]. apply rd_Some in H as [H0 H]. apply lookup_lt_Some in H. lia.
Qed.

Lemma length_declare (n : Z) : 0 ≤ n → Z.of_nat (length (declare n)) = n.
Proof. intros H. unfold declare. rewrite length_replicate. lia. Qed.

Section WarmupProperties.
Context {curandStateXORWOW : Type} `{!Curand curandStateXORWOW}.

Implicit Types (pdf : PDF) (pdfs : list PDF) (pdf_of : Z → PDF).
Implicit Types (rs : curandStateXORWOW) (randState : list curandStateXORWOW).
Implicit Types (st : @Local curandStateXORWOW) (prevSample : list float).

(** *** The step on a dimension of the local arrays *)

Lemma MetropolisHastingsStep_stream pdf (x inv stepsize : float) rs :
  (MetropolisHastingsStep pdf x inv stepsize rs).2 = two_draws rs.
Proof.
  unfold MetropolisHastingsStep, two_draws.
  destruct (curand_normal rs) as [z rs1]. cbn.
  destruct (curand_uniform rs1) as [u rs2]. cbn.
  by destruct (F32.geb _ _).
Qed.

Lemma MetropolisHastingsStep_cache pdf (x inv stepsize : float) rs :
  inv = F32.div F32.one (pdf x) →
  (MetropolisHastingsStep pdf x inv stepsize rs).1.2 =
    F32.div F32.one (pdf (MetropolisHastingsStep pdf x inv stepsize rs).1.1).
Proof.
  intros ->. unfold MetropolisHastingsStep.
  destruct (curand_normal rs) as [z rs1].
  destruct (curand_uniform rs1) as [u rs2].
  by destruct (F32.geb _ _).
Qed.

Lemma step_dimension_Some pdf (n : Z) (stepsize x inv : float) st :
  rd (localPrevSample st) n = Some x →
  rd (localInvPrevPDF st) n = Some inv →
  step_dimension pdf n stepsize st =
    let r := MetropolisHastingsStep pdf x inv stepsize (localRandState st) in
    Some (mkLocal r.2
            (<[Z.to_nat n := Some r.1.1]> (localPrevSample st))
            (<[Z.to_nat n := Some r.1.2]> (localInvPrevPDF st))).
Proof.
  intros Hx Hinv. unfold step_dimension. rewrite Hx, Hinv. cbn.
  destruct (MetropolisHastingsStep pdf x inv stepsize (localRandState st))
    as [[x' inv'] rs'].
  rewrite !wr_Some by (apply rd_lt; eauto). done.
Qed.

Lemma copy_dimension_Some (totalThreads : Z) pdf (n threadId : Z) prevSample
    (lps lip : local_array) (v : float) :
  0 ≤ n → 0 ≤ threadId < totalThreads →
  totalThreads * (n + 1) ≤ INT_MAX →
  n < Z.of_nat (length lps) → n < Z.of_nat (length lip) →
  load prevSample (totalThreads * n + threadId) = Some v →
  copy_dimension totalThreads pdf n threadId prevSample (lps, lip) =
    Some (<[Z.to_nat n := Some v]> lps,
          <[Z.to_nat n := Some (F32.div F32.one (pdf v))]> lip).
Proof.
  intros Hn Ht Hmax Hl1 Hl2 Hv. unfold copy_dimension.
  rewrite flat_index_Some by done. cbn. rewrite Hv. cbn.
  rewrite wr_Some by done. cbn. rewrite rd_insert_eq by done. cbn.
  rewrite wr_Some by done. done.
Qed.

Lemma load_in_range {A} (a : list A) (i : Z) :
  0 ≤ i < Z.of_nat (length a) → is_Some (load a i).
Proof.
  intros H. unfold load. destruct (Z.leb_spec 0 i); [|lia].
  apply lookup_lt_is_Some. lia.
Qed.

(** *** The copy into local storage *)

Lemma copy_bound_spec (nNucleons totalThreads : Z) pdf_of (threadId : Z)
    prevSample :
  0 ≤ threadId < totalThreads → 0 ≤ nNucleons →
  totalThreads * nNucleons ≤ INT_MAX →
  totalThreads * nNucleons ≤ Z.of_nat (length prevSample) →
  ∃ lps lip,
    copy_bound nNucleons totalThreads pdf_of threadId prevSample = Some (lps, lip) ∧
    Z.of_nat (length lps) = nNucleons ∧ Z.of_nat (length lip) = nNucleons ∧
    ∀ n, 0 ≤ n < nNucleons →
      ∃ x, load prevSample (totalThreads * n + threadId) = Some x ∧
           rd lps n = Some x ∧
           rd lip n = Some (F32.div F32.one (pdf_of n x)).
Proof.
  intros Ht HnN Hmax Hlen.
  pose (I := λ (k : Z) (loc : local_array * local_array),
    Z.of_nat (length loc.1) = nNucleons ∧ Z.of_nat (length loc.2) = nNucleons ∧
    ∀ n, 0 ≤ n < k →
      ∃ x, load prevSample (totalThreads * n + threadId) = Some x ∧
           rd loc.1 n = Some x ∧
           rd loc.2 n = Some (F32.div F32.one (pdf_of n x))).
  destruct (for_loop_inv I
    (λ n loc, copy_dimension totalThreads (pdf_of n) n threadId prevSample loc)
    0 nNucleons (declare nNucleons, declare nNucleons))
    as ([lps lip] & Hrun & Hl1 & Hl2 & Hin); [done| | |].
  - split; [by apply length_declare|]. split; [by apply length_declare|].
    intros; lia.
  - intros k [lps lip] Hk (Hl1 & Hl2 & Hin). cbn in Hl1, Hl2.
    destruct (load_in_range prevSample (totalThreads * k + threadId)) as [v Hv];
      [nia|].
    rewrite (copy_dimension_Some _ _ _ _ _ _ _ v) by (try done; try lia; nia).
    eexists; split; [done|]. unfold I. cbn. rewrite !length_insert.
    split; [done|]. split; [done|]. intros n Hn.
    destruct (decide (n = k)) as [->|Hne].
    + exists v. by rewrite !rd_insert_eq by lia.
    + destruct (Hin n) as (x & H1 & H2 & H3); [lia|].
      exists x. by rewrite !rd_insert_ne by lia.
  - by exists lps, lip.
Qed.

(** *** One sweep over the dimensions *)

Lemma sweep_bound_spec (nNucleons : Z) pdf_of (stepsize : float) st :
  0 ≤ nNucleons → local_ok nNucleons st →
  ∃ st',
    sweep_bound nNucleons pdf_of stepsize st = Some st' ∧
    local_ok nNucleons st' ∧
    localRandState st' =
      Nat.iter (Z.to_nat nNucleons) two_draws (localRandState st) ∧
    ∀ n, 0 ≤ n < nNucleons →
      ∃ x inv,
        rd (localPrevSample st) n = Some x ∧
        rd (localInvPrevPDF st) n = Some inv ∧
        let r := MetropolisHastingsStep (pdf_of n) x inv stepsize
                   (Nat.iter (Z.to_nat n) two_draws (localRandState st)) in
        rd (localPrevSample st') n = Some r.1.1 ∧
        rd (localInvPrevPDF st') n = Some r.1.2.
Proof.
  intros HnN (Hl1 & Hl2 & Hinit).
  pose (J := λ (k : Z) (st' : @Local curandStateXORWOW),
    Z.of_nat (length (localPrevSample st')) = nNucleons ∧
    Z.of_nat (length (localInvPrevPDF st')) = nNucleons ∧
    localRandState st' = Nat.iter (Z.to_nat k) two_draws (localRandState st) ∧
    (∀ n, 0 ≤ n < k →
      ∃ x inv,
        rd (localPrevSample st) n = Some x ∧
        rd (localInvPrevPDF st) n = Some inv ∧
        let r := MetropolisHastingsStep (pdf_of n) x inv stepsize
                   (Nat.iter (Z.to_nat n) two_draws (localRandState st)) in
        rd (localPrevSample st') n = Some r.1.1 ∧
        rd (localInvPrevPDF st') n = Some r.1.2) ∧
    (∀ n, k ≤ n < nNucleons →
        rd (localPrevSample st') n = rd (localPrevSample st) n ∧
        rd (localInvPrevPDF st') n = rd (localInvPrevPDF st) n)).
  destruct (for_loop_inv J (λ n st, step_dimension (pdf_of n) n stepsize st)
              0 nNucleons st) as (st' & Hrun & H1 & H2 & Hrs & Hdone & _);
    [done| | |].
  - unfold J. repeat split; try done. intros; lia.
  - intros k s Hk (H1 & H2 & Hrs & Hdone & Hrest).
    destruct (Hinit k Hk) as [[x Hx] [inv Hinv]].
    destruct (Hrest k ltac:(lia)) as [Ex Einv].
    rewrite (step_dimension_Some _ _ _ x inv) by congruence.
    eexists; split; [done|]. unfold J. cbn. rewrite !length_insert.
    split; [done|]. split; [done|]. split; [|split].
    + rewrite MetropolisHastingsStep_stream, Hrs.
      replace (Z.to_nat (k + 1)) with (S (Z.to_nat k)) by lia. done.
    + intros n Hn. destruct (decide (n = k)) as [->|Hne].
      * exists x, inv. rewrite !rd_insert_eq by lia. by rewrite Hrs.
      * destruct (Hdone n) as (x0 & inv0 & ? & ? & ? & ?); [lia|].
        exists x0, inv0. by rewrite !rd_insert_ne by lia.
    + intros n Hn. rewrite !rd_insert_ne by lia. apply Hrest. lia.
  - exists st'. split; [done|]. split; [|done].
    split; [done|]. split; [done|]. intros n Hn.
    destruct (Hdone n Hn) as (x & inv & _ & _ & Hx & Hinv). eauto.
Qed.

(** A sweep keeps the cache invariant. *)
Lemma sweep_bound_cache (nNucleons : Z) pdf_of (stepsize : float) st st' :
  0 ≤ nNucleons → local_ok nNucleons st →
  cache_consistent nNucleons pdf_of st →
  sweep_bound nNucleons pdf_of stepsize st = Some st' →
  cache_consistent nNucleons pdf_of st'.
Proof.
  intros HnN Hok Hc Hrun.
  destruct (sweep_bound_spec nNucleons pdf_of stepsize st HnN Hok)
    as (st1 & Hrun1 & _ & _ & Hdims).
  rewrite Hrun in Hrun1. injection Hrun1 as <-.
  intros n Hn. destruct (Hdims n Hn) as (x & inv & Hx & Hinv & Hx' & Hinv').
  destruct (Hc n Hn) as (x0 & Hx0 & Hinv0).
  rewrite Hx in Hx0. injection Hx0 as <-. rewrite Hinv in Hinv0. injection Hinv0 as ->.
  eexists. split; [exact Hx'|]. rewrite Hinv'. f_equal.
  by apply MetropolisHastingsStep_cache.
Qed.

(** *** The iteration loop *)

Lemma iterate_spec (nNucleons : Z) pdf_of (stepsize : float) (k : Z) st :
  0 ≤ nNucleons → local_ok nNucleons st →
  ∃ st',
    iterate (sweep_bound nNucleons pdf_of stepsize) k st = Some st' ∧
    local_ok nNucleons st' ∧
    localRandState st' =
      Nat.iter (Z.to_nat nNucleons * Z.to_nat k) two_draws (localRandState st) ∧
    (cache_consistent nNucleons pdf_of st →
     cache_consistent nNucleons pdf_of st').
Proof.
  intros HnN Hok. unfold iterate.
  destruct (Z.le_gt_cases k 0) as [Hk|Hk].
  { rewrite for_loop_empty by done. exists st.
    replace (Z.to_nat k) with 0%nat by lia. by rewrite Nat.mul_0_r. }
  pose (J := λ (i : Z) (st' : @Local curandStateXORWOW),
    local_ok nNucleons st' ∧
    localRandState st' =
      Nat.iter (Z.to_nat nNucleons * Z.to_nat i) two_draws (localRandState st) ∧
    (cache_consistent nNucleons pdf_of st →
     cache_consistent nNucleons pdf_of st')).
  apply (for_loop_inv J); [lia| |].
  - unfold J. by rewrite Nat.mul_0_r.
  - intros i s Hi (Hoks & Hrs & Hc).
    destruct (sweep_bound_spec nNucleons pdf_of stepsize s HnN Hoks)
      as (s' & Hrun & Hok' & Hrs' & _).
    exists s'. split; [done|]. split; [done|]. split.
    + rewrite Hrs', Hrs, <- Nat.iter_add. f_equal. lia.
    + intros Hc0. by eapply sweep_bound_cache; [| |apply Hc|].
Qed.

(** *** Loading and storing a lane *)

Lemma local_bound_spec (nNucleons totalThreads : Z) pdf_of (threadId : Z)
    prevSample (stepsize : float) randState (k : Z) :
  lane_wf nNucleons totalThreads threadId prevSample randState →
  ∃ rs0 st,
    load randState threadId = Some rs0 ∧
    local_bound nNucleons totalThreads pdf_of threadId prevSample stepsize
      randState k = Some st ∧
    local_ok nNucleons st ∧
    localRandState st =
      Nat.iter (Z.to_nat nNucleons * Z.to_nat k) two_draws rs0 ∧
    cache_consistent nNucleons pdf_of st.
Proof.
  intros (Ht & HnN & Hmax & Hlen & Hr).
  destruct (load_in_range randState threadId) as [rs0 Hrs0]; [lia|].
  destruct (copy_bound_spec nNucleons totalThreads pdf_of threadId prevSample)
    as (lps & lip & Hcopy & Hl1 & Hl2 & Hdims); [done..|].
  pose (st0 := mkLocal rs0 lps lip).
  assert (Hok0 : local_ok nNucleons st0).
  { split; [done|]. split; [done|]. intros n Hn. cbn.
    destruct (Hdims n Hn) as (x & _ & -> & ->). eauto. }
  assert (Hc0 : cache_consistent nNucleons pdf_of st0).
  { intros n Hn. cbn. destruct (Hdims n Hn) as (x & _ & ? & ?). eauto. }
  destruct (iterate_spec nNucleons pdf_of stepsize k st0 HnN Hok0)
    as (st & Hit & Hok & Hrs & Hc).
  exists rs0, st. split; [done|]. split.
  - unfold local_bound, load_lane. rewrite Hrs0, Hcopy. done.
  - split; [done|]. split; [done|]. by apply Hc.
Qed.

Lemma store_lane_spec (nNucleons totalThreads threadId : Z) st prevSample
    randState :
  lane_wf nNucleons totalThreads threadId prevSample randState →
  local_ok nNucleons st →
  ∃ a',
    store_lane nNucleons totalThreads threadId st prevSample randState =
      Some (a', <[Z.to_nat threadId := localRandState st]> randState) ∧
    length a' = length prevSample ∧
    (∀ n, 0 ≤ n < nNucleons →
          a' !! Z.to_nat (totalThreads * n + threadId) =
            rd (localPrevSample st) n) ∧
    (∀ j : nat, (∀ n, 0 ≤ n < nNucleons →
                      j ≠ Z.to_nat (totalThreads * n + threadId)) →
                a' !! j = prevSample !! j).
Proof.
  intros (Ht & HnN & Hmax & Hlen & Hr) (_ & _ & Hinit).
  destruct (lane_store_loop totalThreads nNucleons threadId
              (rd (localPrevSample st)) prevSample)
    as (a' & Hrun & Hl & Hmine & Hother); [done..| |].
  { intros n Hn. by destruct (Hinit n Hn). }
  exists a'. split; [|done].
  unfold store_lane. rewrite store_Some by lia. cbn. by rewrite Hrun.
Qed.

(** The body of a lane over a binding: it succeeds, writes back the final
    local state to the lane's own slots, and touches nothing else. *)
Lemma WarmupMetropolis_bound_spec (nNucleons totalThreads : Z) pdf_of
    (threadId : Z) prevSample (stepsize : float) randState (iterations : Z) :
  lane_wf nNucleons totalThreads threadId prevSample randState →
  ∃ rs0 st a',
    load randState threadId = Some rs0 ∧
    local_bound nNucleons totalThreads pdf_of threadId prevSample stepsize
      randState iterations = Some st ∧
    WarmupMetropolis_bound nNucleons totalThreads pdf_of threadId prevSample
      stepsize randState iterations =
      Some (a', <[Z.to_nat threadId := localRandState st]> randState) ∧
    localRandState st =
      Nat.iter (Z.to_nat nNucleons * Z.to_nat iterations) two_draws rs0 ∧
    length a' = length prevSample ∧
    (∀ n, 0 ≤ n < nNucleons →
          a' !! Z.to_nat (totalThreads * n + threadId) =
            rd (localPrevSample st) n) ∧
    (∀ j : nat, (∀ n, 0 ≤ n < nNucleons →
                      j ≠ Z.to_nat (totalThreads * n + threadId)) →
                a' !! j = prevSample !! j).
Proof.
  intros Hwf.
  destruct (local_bound_spec nNucleons totalThreads pdf_of threadId prevSample
              stepsize randState iterations Hwf)
    as (rs0 & st & Hrs0 & Hloc & Hok & Hrs & _).
  destruct (store_lane_spec nNucleons totalThreads threadId st prevSample
              randState Hwf Hok) as (a' & Hst & Hrest).
  exists rs0, st, a'. split; [done|]. split; [done|]. split; [|done].
  unfold WarmupMetropolis_bound. rewrite Hloc. done.
Qed.

(** What a lane computes depends on the shared arrays only through the
    lane's own slots. *)
Lemma local_bound_agree (nNucleons totalThreads : Z) pdf_of (threadId : Z)
    (a1 a2 : list float) (stepsize : float)
    (r1 r2 : list curandStateXORWOW) (k : Z) :
  (∀ n, 0 ≤ n < nNucleons →
        load a1 (totalThreads * n + threadId) =
        load a2 (totalThreads * n + threadId)) →
  load r1 threadId = load r2 threadId →
  local_bound nNucleons totalThreads pdf_of threadId a1 stepsize r1 k =
  local_bound nNucleons totalThreads pdf_of threadId a2 stepsize r2 k.
Proof.
  intros Ha Hr. unfold local_bound, load_lane. rewrite Hr.
  replace (copy_bound nNucleons totalThreads pdf_of threadId a1)
    with (copy_bound nNucleons totalThreads pdf_of threadId a2); [done|].
  unfold copy_bound, for_loop. apply for_range_ext. intros n loc Hn.
  unfold copy_dimension.
  destruct (flat_index totalThreads n threadId) as [i|] eqn:E; [|done].
  apply flat_index_inv in E as ->. cbn. rewrite Ha by lia. done.
Qed.

(** *** The recursive templates never instantiate *)

Lemma WarmupCopy_cons (totalThreads n : Z) (pdf pdf' : PDF) (pdfs : list PDF) :
  WarmupCopy totalThreads n (pdf :: pdf' :: pdfs) =
  match WarmupCopy totalThreads (n + 1) (pdf' :: pdfs) with
  | inl e => inl e
  | inr rest =>
      inr (λ threadId prevSample loc,
             loc' ← copy_dimension totalThreads pdf n threadId prevSample loc;
             rest threadId prevSample loc')
  end.
Proof. reflexivity. Qed.

Lemma WarmupCopy_fails (totalThreads n : Z) (pack : list PDF) :
  WarmupCopy totalThreads n pack =
    inl (if decide (pack = []) then no_matching_function else ambiguous_call).
Proof.
  revert n. induction pack as [|pdf pdfs IH]; intros n; [done|].
  destruct pdfs as [|pdf' pdfs]; [done|].
  by rewrite WarmupCopy_cons, IH.
Qed.

Lemma WarmupGibbs_cons (n : Z) (pdf pdf' : PDF) (pdfs : list PDF) :
  WarmupGibbs (curandStateXORWOW := curandStateXORWOW) n (pdf :: pdf' :: pdfs) =
  match WarmupGibbs (n + 1) (pdf' :: pdfs) with
  | inl e => inl e
  | inr rest =>
      inr (λ stepsize st,
             st' ← step_dimension pdf n stepsize st; rest stepsize st')
  end.
Proof. reflexivity. Qed.

Lemma WarmupGibbs_fails (n : Z) (pack : list PDF) :
  WarmupGibbs (curandStateXORWOW := curandStateXORWOW) n pack =
    inl (if decide (pack = []) then no_matching_function else ambiguous_call).
Proof.
  revert n. induction pack as [|pdf pdfs IH]; intros n; [done|].
  destruct pdfs as [|pdf' pdfs]; [done|].
  by rewrite WarmupGibbs_cons, IH.
Qed.

Lemma local_single_bound (nNucleons totalThreads : Z) pdf (threadId : Z)
    prevSample (stepsize : float) randState (k : Z) :
  local_single nNucleons totalThreads pdf threadId prevSample stepsize randState k =
  local_bound nNucleons totalThreads (bound_pdf [pdf]) threadId prevSample
    stepsize randState k.
Proof. reflexivity. Qed.

(** Every kernel that instantiates is the body over the binding of its pack,
    and its pack has exactly one function. *)
Lemma WarmupMetropolis_inr (nNucleons totalThreads : Z) pdfs
    (body : @lane_body curandStateXORWOW) :
  WarmupMetropolis nNucleons totalThreads pdfs = inr body →
  length pdfs = 1%nat ∧
  pdfs ≠ [] ∧
  ∀ threadId prevSample stepsize randState iterations,
    body threadId prevSample stepsize randState iterations =
    WarmupMetropolis_bound nNucleons totalThreads (bound_pdf pdfs) threadId
      prevSample stepsize randState iterations.
Proof.
  unfold WarmupMetropolis.
  destruct pdfs as [|pdf [|pdf' pdfs]].
  - rewrite WarmupCopy_fails. by destruct (nNucleons =? _).
  - by intros [= <-].
  - rewrite WarmupCopy_fails. by destruct (nNucleons =? _).
Qed.

Lemma lane_local_bound (nNucleons totalThreads : Z) pdfs (threadId : Z)
    prevSample (stepsize : float) randState (k : Z) :
  length pdfs = 1%nat → pdfs ≠ [] →
  lane_local nNucleons totalThreads pdfs threadId prevSample stepsize randState k =
  local_bound nNucleons totalThreads (bound_pdf pdfs) threadId prevSample
    stepsize randState k.
Proof. intros Hlen Hne. by destruct pdfs as [|pdf [|pdf' pdfs]]. Qed.

(** The body of an instantiated kernel is its local phase followed by the
    write-back. *)
Lemma WarmupMetropolis_body (nNucleons totalThreads : Z) pdfs
    (body : @lane_body curandStateXORWOW) :
  WarmupMetropolis nNucleons totalThreads pdfs = inr body →
  ∀ threadId prevSample stepsize randState iterations,
    body threadId prevSample stepsize randState iterations =
    st ← lane_local nNucleons totalThreads pdfs threadId prevSample stepsize
         randState iterations;
    store_lane nNucleons totalThreads threadId st prevSample randState.
Proof.
  unfold WarmupMetropolis.
  destruct pdfs as [|pdf [|pdf' pdfs]].
  - rewrite WarmupCopy_fails. by destruct (nNucleons =? _).
  - by intros [= <-].
  - rewrite WarmupCopy_fails. by destruct (nNucleons =? _).
Qed.

Lemma bound_pdf_lookup pdfs (n : Z) (f : PDF) :
  pdfs !! Z.to_nat n = Some f → bound_pdf pdfs n = f.
Proof.
  intros H. destruct pdfs as [|pdf [|pdf' pdfs]]; [done| |].
  - change (pdf = f). destruct (Z.to_nat n); cbn in H; [congruence|done].
  - by apply nth_lookup_Some.
Qed.

Lemma for_range_snoc {A} (body : Z → A → option A) (c : nat) (i : Z) (a : A) :
  for_range (S c) i body a =
  a' ← for_range c i body a; body (i + Z.of_nat c) a'.
Proof.
  revert i a. induction c as [|c IH]; intros i a.
  - cbn. replace (i + Z.of_nat 0) with i by lia. by destruct (body i a).
  - rewrite for_range_S. rewrite (for_range_S body c).
    destruct (body i a) as [a1|]; [|done]. cbn [mbind option_bind].
    rewrite IH. replace (i + 1 + Z.of_nat c) with (i + Z.of_nat (S c)) by lia.
    done.
Qed.

Lemma iterate_succ (sweep : @Local curandStateXORWOW → option Local) (k : Z) st :
  0 ≤ k →
  iterate sweep (k + 1) st = st' ← iterate sweep k st; sweep st'.
Proof.
  intros Hk. unfold iterate, for_loop.
  replace (Z.to_nat (k + 1 - 0)) with (S (Z.to_nat (k - 0))) by lia.
  apply for_range_snoc.
Qed.

(** With no iteration the local samples are the lane's slots. *)
Lemma local_bound_zero (nNucleons totalThreads : Z) pdf_of (threadId : Z)
    prevSample (stepsize : float) randState :
  lane_wf nNucleons totalThreads threadId prevSample randState →
  ∃ st0,
    local_bound nNucleons totalThreads pdf_of threadId prevSample stepsize
      randState 0 = Some st0 ∧
    ∀ n, 0 ≤ n < nNucleons →
      rd (localPrevSample st0) n =
        load prevSample (totalThreads * n + threadId).
Proof.
  intros (Ht & HnN & Hmax & Hlen & Hr).
  destruct (load_in_range randState threadId) as [rs0 Hrs0]; [lia|].
  destruct (copy_bound_spec nNucleons totalThreads pdf_of threadId prevSample)
    as (lps & lip & Hcopy & Hl1 & Hl2 & Hdims); [done..|].
  exists (mkLocal rs0 lps lip). split.
  - unfold local_bound, load_lane. rewrite Hrs0, Hcopy. done.
  - intros n Hn. cbn. destruct (Hdims n Hn) as (x & -> & -> & _). done.
Qed.

Lemma local_bound_ext (nNucleons totalThreads : Z) (f g : Z → PDF)
    (threadId : Z) prevSample (stepsize : float) randState (k : Z) :
  (∀ n, 0 ≤ n < nNucleons → f n = g n) →
  local_bound nNucleons totalThreads f threadId prevSample stepsize randState k =
  local_bound nNucleons totalThreads g threadId prevSample stepsize randState k.
Proof.
  intros Hfg. unfold local_bound.
  replace (copy_bound nNucleons totalThreads f threadId prevSample)
    with (copy_bound nNucleons totalThreads g threadId prevSample).
  - destruct (load_lane _ _ _) as [st|]; [|done]. cbn.
    unfold iterate, for_loop. apply for_range_ext. intros _ s _.
    unfold sweep_bound, for_loop. apply for_range_ext. intros n s' Hn.
    by rewrite Hfg by lia.
  - unfold copy_bound, for_loop. apply for_range_ext. intros n loc Hn.
    by rewrite Hfg by lia.
Qed.

(** ** The warm-up kernel *)

(** C4. In every lane of an instantiated kernel, whatever the number k of
    iterations already run (k = 0: right after the copy into local storage),
    each dimension n holds a sample x and the cached value
    1 / pdf_n(x), pdf_n being the density bound to dimension n.  One
    MetropolisHastingsStep started from a consistent cache ends with a
    consistent cache. *)
Theorem cache_invariant (nNucleons totalThreads : Z) pdfs
    (body : @lane_body curandStateXORWOW) (threadId : Z) prevSample
    (stepsize : float) randState (k : Z) :
  WarmupMetropolis nNucleons totalThreads pdfs = inr body →
  lane_wf nNucleons totalThreads threadId prevSample randState →
  (∃ st,
     lane_local nNucleons totalThreads pdfs threadId prevSample stepsize
       randState k = Some st ∧
     ∀ n, 0 ≤ n < nNucleons →
       ∃ x, rd (localPrevSample st) n = Some x ∧
            rd (localInvPrevPDF st) n =
              Some (F32.div F32.one (bound_pdf pdfs n x))) ∧
  (∀ pdf (x s : float) rs,
     let r := MetropolisHastingsStep pdf x (F32.div F32.one (pdf x)) s rs in
     r.1.2 = F32.div F32.one (pdf r.1.1)).
Proof.
  intros Hinst Hwf. split.
  - apply WarmupMetropolis_inr in Hinst as (Hlen & Hne & _).
    rewrite lane_local_bound by done.
    destruct (local_bound_spec nNucleons totalThreads (bound_pdf pdfs) threadId
                prevSample stepsize randState k Hwf)
      as (rs0 & st & _ & Hloc & _ & _ & Hc).
    by exists st.
  - intros pdf x s rs. by apply MetropolisHastingsStep_cache.
Qed.

(** C5 (defect of the code). The per-dimension branch does not build.  For
    a pack of two or more functions whose length is nNucleons (the static
    assertion holds), the instantiation of WarmupMetropolis fails: the sweep
    WarmupGibbs<n, pdfs...> reaches a call with one function left, which is
    ambiguous between the two overloads, and so does the copy that
    WarmupMetropolis instantiates first.  No heterogeneous sweep exists; only the
    one-function kernel instantiates. *)
Theorem heterogeneous_sweep_does_not_build (nNucleons totalThreads : Z) pdfs :
  (2 ≤ length pdfs)%nat →
  nNucleons = Z.of_nat (length pdfs) →
  (∀ n, WarmupGibbs (curandStateXORWOW := curandStateXORWOW) n pdfs
        = inl ambiguous_call) ∧
  WarmupMetropolis (curandStateXORWOW := curandStateXORWOW)
    nNucleons totalThreads pdfs = inl ambiguous_call.
Proof.
  intros Hlen ->.
  destruct pdfs as [|pdf [|pdf' pdfs]]; [cbn in Hlen; lia..|].
  split.
  - intros n. by rewrite WarmupGibbs_fails.
  - unfold WarmupMetropolis. rewrite Z.eqb_refl. by rewrite WarmupCopy_fails.
Qed.

(** C6. Lane threadId of InitSampleArray writes the slots
    totalThreads * n + threadId and no other slot.  Lane threadId of an
    instantiated WarmupMetropolis loads dimension n from slot
    totalThreads * n + threadId, stores dimension n of its final local state
    back to that slot, writes no other slot of the sample array and only its
    own cell of the stream-state array, and what it computes depends on the
    two arrays only through these slots.  Slots of different lanes are
    different. *)
Theorem lane_partition (nNucleons totalThreads : Z) pdfs
    (body : @lane_body curandStateXORWOW) (threadId : Z) prevSample
    (stepsize : float) randState (iterations initSample : Z) :
  WarmupMetropolis nNucleons totalThreads pdfs = inr body →
  lane_wf nNucleons totalThreads threadId prevSample randState →
  let slot n := Z.to_nat (totalThreads * n + threadId) in
  let foreign (j : nat) := ∀ n, 0 ≤ n < nNucleons → j ≠ slot n in
  (∃ a0,
     InitSampleArray initSample nNucleons totalThreads threadId prevSample
       = Some a0 ∧
     (∀ n, 0 ≤ n < nNucleons → a0 !! slot n = Some (F32.of_int initSample)) ∧
     (∀ j, foreign j → a0 !! j = prevSample !! j)) ∧
  (∃ st0,
     lane_local nNucleons totalThreads pdfs threadId prevSample stepsize
       randState 0 = Some st0 ∧
     ∀ n, 0 ≤ n < nNucleons →
       rd (localPrevSample st0) n = prevSample !! slot n) ∧
  (∃ st a',
     lane_local nNucleons totalThreads pdfs threadId prevSample stepsize
       randState iterations = Some st ∧
     body threadId prevSample stepsize randState iterations =
       Some (a', <[Z.to_nat threadId := localRandState st]> randState) ∧
     (∀ n, 0 ≤ n < nNucleons → a' !! slot n = rd (localPrevSample st) n) ∧
     (∀ j, foreign j → a' !! j = prevSample !! j)) ∧
  (∀ (a2 : list float) (r2 : list curandStateXORWOW),
     (∀ n, 0 ≤ n < nNucleons → a2 !! slot n = prevSample !! slot n) →
     r2 !! Z.to_nat threadId = randState !! Z.to_nat threadId →
     lane_local nNucleons totalThreads pdfs threadId a2 stepsize r2 iterations =
     lane_local nNucleons totalThreads pdfs threadId prevSample stepsize
       randState iterations) ∧
  (∀ n n' t', 0 ≤ t' < totalThreads →
     totalThreads * n + threadId = totalThreads * n' + t' →
     n = n' ∧ threadId = t').
Proof.
  intros Hinst Hwf slot foreign.
  pose proof (WarmupMetropolis_body _ _ _ _ Hinst) as Hbody.
  apply WarmupMetropolis_inr in Hinst as (Hlen & Hne & Hb).
  pose proof Hwf as (Ht & HnN & Hmax & Hsz & Hr).
  assert (Hload : ∀ (a : list float) n, 0 ≤ n < nNucleons →
            load a (totalThreads * n + threadId) = a !! slot n).
  { intros a n Hn. unfold load. destruct (Z.leb_spec 0 (totalThreads * n + threadId));
      [done|nia]. }
  split; [|split; [|split; [|split]]].
  - destruct (InitSampleArray_lane initSample nNucleons totalThreads threadId
                prevSample) as (a0 & H0 & _ & Hmine & Hother); [done..|].
    by exists a0.
  - rewrite lane_local_bound by done.
    destruct (local_bound_zero nNucleons totalThreads (bound_pdf pdfs) threadId
                prevSample stepsize randState Hwf) as (st0 & H0 & Hrd).
    exists st0. split; [done|]. intros n Hn. by rewrite Hrd, Hload.
  - destruct (WarmupMetropolis_bound_spec nNucleons totalThreads (bound_pdf pdfs)
                threadId prevSample stepsize randState iterations Hwf)
      as (rs0 & st & a' & _ & Hloc & Hrun & _ & _ & Hmine & Hother).
    exists st, a'. rewrite lane_local_bound by done.
    split; [done|]. split; [|done]. by rewrite Hb.
  - intros a2 r2 Ha Hr2. rewrite !lane_local_bound by done.
    apply local_bound_agree.
    + intros n Hn. by rewrite !Hload, Ha.
    + unfold load. by rewrite Hr2.
  - intros n n' t' Ht' E. by apply (flat_index_inj totalThreads).
Qed.

(** C7. A pack that does not consist of exactly one function (the pack of
    the per-dimension branch) and whose length differs from nNucleons does
    not instantiate: the static assertion fails, and there is no lane body
    to run. *)
Theorem mismatched_pack_rejected (nNucleons totalThreads : Z) pdfs :
  length pdfs ≠ 1%nat →
  nNucleons ≠ Z.of_nat (length pdfs) →
  WarmupMetropolis (curandStateXORWOW := curandStateXORWOW)
    nNucleons totalThreads pdfs = inl static_assert_failed.
Proof.
  intros H1 Hne. unfold WarmupMetropolis.
  destruct pdfs as [|pdf [|pdf' pdfs]]; [|done|].
  - by destruct (Z.eqb_spec nNucleons (Z.of_nat (length (@nil PDF)))).
  - by destruct (Z.eqb_spec nNucleons (Z.of_nat (length (pdf :: pdf' :: pdfs)))).
Qed.

(** C8 (defect of the code). For nNucleons >= 2, the kernel on the pack that
    repeats f nNucleons times does not build (the calls of the per-dimension
    branch are ambiguous), while the kernel on the single function f does:
    there is no heterogeneous run to compare with the homogeneous one. *)
Theorem repeated_pack_does_not_build (nNucleons totalThreads : Z) (f : PDF) :
  2 ≤ nNucleons →
  WarmupMetropolis (curandStateXORWOW := curandStateXORWOW)
    nNucleons totalThreads (replicate (Z.to_nat nNucleons) f)
    = inl ambiguous_call ∧
  WarmupMetropolis nNucleons totalThreads [f]
    = inr (WarmupMetropolis_single nNucleons totalThreads f).
Proof.
  intros HnN. split; [|done].
  unfold WarmupMetropolis.
  destruct (Z.to_nat nNucleons) as [|[|m]] eqn:E; [lia|lia|].
  cbn [replicate].
  destruct (Z.eqb_spec nNucleons (Z.of_nat (length (f :: f :: replicate m f))))
    as [_|Hne].
  - by rewrite WarmupCopy_fails.
  - cbn [length] in Hne. rewrite length_replicate in Hne. lia.
Qed.

(** C10. A MetropolisHastingsStep leaves the stream where one normal draw
    followed by one uniform draw leave it, whatever the density, the sample,
    the cache and the outcome of the test.  A lane of an instantiated kernel
    writes back the stream state it loaded advanced by
    nNucleons * iterations such pairs of draws. *)
Theorem stream_advance (nNucleons totalThreads : Z) pdfs
    (body : @lane_body curandStateXORWOW) (threadId : Z) prevSample
    (stepsize : float) randState (iterations : Z) :
  WarmupMetropolis nNucleons totalThreads pdfs = inr body →
  lane_wf nNucleons totalThreads threadId prevSample randState →
  (∀ pdf (x inv s : float) rs,
     (MetropolisHastingsStep pdf x inv s rs).2 =
       (curand_uniform (curand_normal rs).2).2) ∧
  ∃ rs0 a' r',
    load randState threadId = Some rs0 ∧
    body threadId prevSample stepsize randState iterations = Some (a', r') ∧
    load r' threadId =
      Some (Nat.iter (Z.to_nat nNucleons * Z.to_nat iterations) two_draws rs0).
Proof.
  intros Hinst Hwf. split.
  { intros. apply MetropolisHastingsStep_stream. }
  apply WarmupMetropolis_inr in Hinst as (Hlen & Hne & Hb).
  destruct (WarmupMetropolis_bound_spec nNucleons totalThreads (bound_pdf pdfs)
              threadId prevSample stepsize randState iterations Hwf)
    as (rs0 & st & a' & Hrs0 & _ & Hrun & Hrs & _).
  exists rs0, a', (<[Z.to_nat threadId := localRandState st]> randState).
  split; [done|]. split; [by rewrite Hb|].
  destruct Hwf as (Ht & _ & _ & _ & Hr).
  apply load_Some. split; [lia|]. rewrite list_lookup_insert_eq by lia.
  by rewrite Hrs.
Qed.

End WarmupProperties.

(** ** The theorems at a concrete launch *)

Lemma cache_invariant_witness :
  (∃ st,
     lane_local 2 2 [shelf_pdf] 1 example_samples F32.one example_streams 1
       = Some st ∧
     ∀ n, 0 ≤ n < 2 →
       ∃ x, rd (localPrevSample st) n = Some x ∧
            rd (localInvPrevPDF st) n =
              Some (F32.div F32.one (bound_pdf [shelf_pdf] n x))) ∧
  (∀ (pdf : PDF) (x s : float) (rs : list float),
     let r := MetropolisHastingsStep pdf x (F32.div F32.one (pdf x)) s rs in
     r.1.2 = F32.div F32.one (pdf r.1.1)).
Proof.
  apply (cache_invariant 2 2 [shelf_pdf]
           (WarmupMetropolis_single 2 2 shelf_pdf)
           1 example_samples F32.one example_streams 1).
  - reflexivity.
  - unfold lane_wf, INT_MAX. cbn. lia.
Defined.

Lemma heterogeneous_sweep_does_not_build_witness :
  (∀ n, WarmupGibbs (curandStateXORWOW := list float) n example_pack
        = inl ambiguous_call) ∧
  WarmupMetropolis (curandStateXORWOW := list float) 2 2 example_pack
    = inl ambiguous_call.
Proof.
  apply (heterogeneous_sweep_does_not_build 2 2 example_pack).
  - cbn. lia.
  - reflexivity.
Defined.

Lemma lane_partition_witness :
  let slot n := Z.to_nat (2 * n + 1) in
  let foreign (j : nat) := ∀ n, 0 ≤ n < 2 → j ≠ slot n in
  (∃ a0,
     InitSampleArray 3 2 2 1 example_samples = Some a0 ∧
     (∀ n, 0 ≤ n < 2 → a0 !! slot n = Some (F32.of_int 3)) ∧
     (∀ j, foreign j → a0 !! j = example_samples !! j)) ∧
  (∃ st0,
     lane_local 2 2 [shelf_pdf] 1 example_samples F32.one example_streams 0
       = Some st0 ∧
     ∀ n, 0 ≤ n < 2 → rd (localPrevSample st0) n = example_samples !! slot n) ∧
  (∃ st a',
     lane_local 2 2 [shelf_pdf] 1 example_samples F32.one example_streams 1
       = Some st ∧
     WarmupMetropolis_single 2 2 shelf_pdf 1 example_samples
       F32.one example_streams 1 =
       Some (a', <[Z.to_nat 1 := localRandState st]> example_streams) ∧
     (∀ n, 0 ≤ n < 2 → a' !! slot n = rd (localPrevSample st) n) ∧
     (∀ j, foreign j → a' !! j = example_samples !! j)) ∧
  (∀ (a2 : list float) (r2 : list (list float)),
     (∀ n, 0 ≤ n < 2 → a2 !! slot n = example_samples !! slot n) →
     r2 !! Z.to_nat 1 = example_streams !! Z.to_nat 1 →
     lane_local 2 2 [shelf_pdf] 1 a2 F32.one r2 1 =
     lane_local 2 2 [shelf_pdf] 1 example_samples F32.one example_streams 1) ∧
  (∀ n n' t', 0 ≤ t' < 2 → 2 * n + 1 = 2 * n' + t' → n = n' ∧ 1 = t').
Proof.
  apply (lane_partition 2 2 [shelf_pdf]
           (WarmupMetropolis_single 2 2 shelf_pdf)
           1 example_samples F32.one example_streams 1 3).
  - reflexivity.
  - unfold lane_wf, INT_MAX. cbn. lia.
Defined.

Lemma mismatched_pack_rejected_witness :
  WarmupMetropolis (curandStateXORWOW := list float) 3 2 example_pack
    = inl static_assert_failed.
Proof.
  apply (mismatched_pack_rejected 3 2 example_pack).
  - cbn. lia.
  - cbn. lia.
Defined.

Lemma repeated_pack_does_not_build_witness :
  WarmupMetropolis (curandStateXORWOW := list float) 2 2
    (replicate (Z.to_nat 2) shelf_pdf) = inl ambiguous_call ∧
  WarmupMetropolis (curandStateXORWOW := list float) 2 2 [shelf_pdf]
    = inr (WarmupMetropolis_single 2 2 shelf_pdf).
Proof. apply (repeated_pack_does_not_build 2 2 shelf_pdf). lia. Defined.

Lemma stream_advance_witness :
  (∀ (pdf : PDF) (x inv s : float) (rs : list float),
     (MetropolisHastingsStep pdf x inv s rs).2 =
       (curand_uniform (curand_normal rs).2).2) ∧
  ∃ rs0 a' r',
    load example_streams 1 = Some rs0 ∧
    WarmupMetropolis_single 2 2 shelf_pdf 1 example_samples
      F32.one example_streams 1 = Some (a', r') ∧
    load r' 1 = Some (Nat.iter (Z.to_nat 2 * Z.to_nat 1) two_draws rs0).
Proof.
  apply (stream_advance 2 2 [shelf_pdf]
           (WarmupMetropolis_single 2 2 shelf_pdf)
           1 example_samples F32.one example_streams 1).
  - reflexivity.
  - unfold lane_wf, INT_MAX. cbn. lia.
Defined.

(** The example launch, evaluated: lane 1 accepts the proposal 6 in dimension
    0; in dimension 1 the density is zero at the sample and at the proposal,
    the ratio is a NaN and the sample is kept; the stream is exhausted after
    the four draws. *)
Example example_lane_1 :
  WarmupMetropolis_single 2 2 shelf_pdf 1 example_samples
    F32.one example_streams 1 =
  Some ([F32.zero; F32.of_int 6; F32.zero; F32.zero],
        [[F32.one; f32_half; F32.of_int 6; f32_half]; []]).
Proof. vm_compute. reflexivity. Qed.

(** * Further properties of the code *)

(** ** cudaCores *)

(** X9. When the device query succeeds on a device with mp > 0
    multiprocessors (192 * mp representable), cudaCores returns: either it
    prints nothing and returns a multiple of mp between 32 * mp and 192 * mp,
    or it prints "Unknown device type" once and returns 0.  So a return value
    of 0 is exactly the unknown-device case. *)
Theorem cudaCores_known_or_zero (devProp : cudaDeviceProp) (err : Z) :
  err = cudaSuccess →
  0 < multiProcessorCount devProp →
  192 * multiProcessorCount devProp ≤ INT_MAX →
  ∃ cores out,
    cudaCores devProp err = Returned cores out ∧
    ((out = [] ∧
      (∃ k, cores = multiProcessorCount devProp * k ∧ 32 ≤ k ≤ 192) ∧
      0 < cores) ∨
     (out = [Unknown_device_type] ∧ cores = 0)).
Proof.
  intros -> Hmp Hmax. unfold cudaCores. cbn [Z.eqb cudaSuccess].
  set (mp := multiProcessorCount devProp) in *.
  assert (Htimes : ∀ k, 32 ≤ k ≤ 192 →
    ∃ cores out,
      match int_mul mp k with
      | Some cores => Returned cores []
      | None => Undefined
      end = Returned cores out ∧
      ((out = [] ∧ (∃ k, cores = mp * k ∧ 32 ≤ k ≤ 192) ∧ 0 < cores) ∨
       (out = [Unknown_device_type] ∧ cores = 0))).
  { intros k Hk. unfold int_mul, in_int, INT_MIN.
    assert (0 < 2 ^ 31) by lia.
    destruct (Z.leb_spec (- 2 ^ 31) (mp * k)); [|nia].
    destruct (Z.leb_spec (mp * k) INT_MAX); [|nia]. cbn.
    eexists _, _. split; [done|]. left. split; [done|]. split; [eauto|nia]. }
  assert (Hunk : ∃ cores out,
      Returned 0 [Unknown_device_type] = Returned cores out ∧
      ((out = [] ∧ (∃ k, cores = mp * k ∧ 32 ≤ k ≤ 192) ∧ 0 < cores) ∨
       (out = [Unknown_device_type] ∧ cores = 0))).
  { eexists _, _. split; [done|]. by right. }
  repeat match goal with
         | |- context [if ?b then _ else _] => destruct b
         end;
    first [exact Hunk | apply Htimes; lia].
Qed.

Lemma cudaCores_known_or_zero_witness :
  ∃ cores out,
    cudaCores {| major := 8; minor := 6; multiProcessorCount := 82 |} cudaSuccess
      = Returned cores out ∧
    ((out = [] ∧ (∃ k, cores = 82 * k ∧ 32 ≤ k ≤ 192) ∧ 0 < cores) ∨
     (out = [Unknown_device_type] ∧ cores = 0)).
Proof.
  apply (cudaCores_known_or_zero
           {| major := 8; minor := 6; multiProcessorCount := 82 |} cudaSuccess).
  - reflexivity.
  - cbn. lia.
  - unfold INT_MAX. cbn. lia.
Defined.

(** ** RandStateInit *)

Section SeedProperties.
Context {curandStateXORWOW : Type} `{!CurandInit curandStateXORWOW}.

Lemma RandStateInit_launch (seed totalThreads : Z)
    (randState : list curandStateXORWOW) :
  0 ≤ totalThreads ≤ Z.of_nat (length randState) →
  ∃ r',
    launch totalThreads (RandStateInit seed) randState = Some r' ∧
    length r' = length randState ∧
    (∀ t, 0 ≤ t < totalThreads → load r' t = Some (curand_init seed t 0)) ∧
    (∀ j : nat, (Z.to_nat totalThreads ≤ j)%nat → r' !! j = randState !! j).
Proof.
  intros HT.
  pose (I := λ (k : Z) (r' : list curandStateXORWOW),
    length r' = length randState ∧
    (∀ t, 0 ≤ t < k → r' !! Z.to_nat t = Some (curand_init seed t 0)) ∧
    (∀ j : nat, (Z.to_nat k ≤ j)%nat → r' !! j = randState !! j)).
  destruct (for_loop_inv I (RandStateInit seed) 0 totalThreads randState)
    as (r' & Hrun & Hl & Hin & Hout); [lia| | |].
  - split; [done|]. split; [intros; lia|done].
  - intros k x Hk (Hl & Hin & Hout). unfold RandStateInit.
    rewrite store_Some by lia. eexists; split; [done|]. unfold I.
    rewrite length_insert. split; [done|]. split.
    + intros t Ht. destruct (decide (t = k)) as [->|Hne].
      * rewrite list_lookup_insert_eq by lia. done.
      * rewrite list_lookup_insert_ne by lia. apply Hin. lia.
    + intros j Hj. rewrite list_lookup_insert_ne by lia. apply Hout. lia.
  - exists r'. split; [done|]. split; [done|]. split; [|done].
    intros t Ht. apply load_Some. split; [lia|]. by apply Hin.
Qed.

(** X1. Launched on totalThreads lanes over an array of at least that many
    cells, RandStateInit succeeds and leaves in cell t, for every lane t, the
    state curand_init(seed, t, 0): the same seed, the lane index as sequence
    number, offset 0; the cells beyond the lanes keep their content. *)
Theorem RandStateInit_fills (seed totalThreads : Z)
    (randState : list curandStateXORWOW) :
  0 ≤ totalThreads ≤ Z.of_nat (length randState) →
  ∃ r',
    launch totalThreads (RandStateInit seed) randState = Some r' ∧
    length r' = length randState ∧
    (∀ t, 0 ≤ t < totalThreads → load r' t = Some (curand_init seed t 0)) ∧
    (∀ j : nat, (Z.to_nat totalThreads ≤ j)%nat → r' !! j = randState !! j).
Proof. apply RandStateInit_launch. Qed.

End SeedProperties.

Lemma RandStateInit_fills_witness :
  ∃ r',
    launch 2 (RandStateInit 7) example_streams = Some r' ∧
    length r' = length example_streams ∧
    (∀ t, 0 ≤ t < 2 → load r' t = Some (curand_init 7 t 0)) ∧
    (∀ j : nat, (Z.to_nat 2 ≤ j)%nat → r' !! j = example_streams !! j).
Proof. apply (RandStateInit_fills 7 2 example_streams). cbn. lia. Defined.

(** ** Degenerate densities in a step *)

Lemma mul_nan_r (x : float) : F32.mul x S754_nan = S754_nan.
Proof. by destruct x. Qed.

Lemma div_one_nan : F32.div F32.one S754_nan = S754_nan.
Proof. done. Qed.

Lemma geb_zero_pos (s : bool) (u : float) :
  F32.ltb F32.zero u = true → F32.geb (S754_zero s) u = false.
Proof. by destruct u as [|[]| |[]]. Qed.

Lemma geb_zero_or_nan_mul (p inv u : float) :
  f32_zero_or_nan p = true → F32.ltb F32.zero u = true →
  F32.geb (F32.mul p inv) u = false.
Proof.
  intros Hp Hu. destruct p as [s| | |]; try done.
  - destruct inv as [s'|s'| |s' m e]; cbn;
      first [apply geb_nan | by apply geb_zero_pos].
  - apply geb_nan.
Qed.

Section StepEdgeCases.
Context {curandStateXORWOW : Type} `{!Curand curandStateXORWOW}.

Implicit Types (pdf : PDF) (rs randState : curandStateXORWOW).

Lemma MetropolisHastingsStep_nan_cache pdf (x stepsize : float) rs :
  MetropolisHastingsStep pdf x S754_nan stepsize rs = (x, S754_nan, two_draws rs).
Proof.
  unfold MetropolisHastingsStep, two_draws.
  destruct (curand_normal rs) as [z rs1]. cbn.
  destruct (curand_uniform rs1) as [u rs2]. cbn.
  by rewrite mul_nan_r, geb_nan.
Qed.

(** X7. A proposal at which the density is a zero or a NaN is rejected
    whenever the uniform draw is positive, whatever the cached inverse: the
    sample and the cache keep their values. *)
Theorem zero_density_proposal_rejected pdf (prevSample invPrevPDF stepSize : float)
    randState z rs1 u rs2 :
  curand_normal randState = (z, rs1) →
  curand_uniform rs1 = (u, rs2) →
  f32_zero_or_nan (pdf (F32.add prevSample (F32.mul stepSize z))) = true →
  F32.ltb F32.zero u = true →
  MetropolisHastingsStep pdf prevSample invPrevPDF stepSize randState =
    (prevSample, invPrevPDF, rs2).
Proof.
  intros Ez Eu Hz Hu. unfold MetropolisHastingsStep. rewrite Ez, Eu.
  by rewrite geb_zero_or_nan_mul.
Qed.

(** With positive uniform draws, a step never moves the sample to a point
    where the density is a zero or a NaN. *)
Lemma MetropolisHastingsStep_support pdf (x inv stepsize : float) rs :
  (∀ rs', F32.ltb F32.zero (curand_uniform rs').1 = true) →
  f32_zero_or_nan (pdf x) = false →
  f32_zero_or_nan (pdf (MetropolisHastingsStep pdf x inv stepsize rs).1.1) = false.
Proof.
  intros Hu Hx. unfold MetropolisHastingsStep.
  destruct (curand_normal rs) as [z rs1].
  pose proof (Hu rs1) as Hu1.
  destruct (curand_uniform rs1) as [u rs2]. cbn in Hu1.
  destruct (f32_zero_or_nan (pdf (F32.add x (F32.mul stepsize z)))) eqn:E.
  - by rewrite geb_zero_or_nan_mul.
  - by destruct (F32.geb _ _).
Qed.

End StepEdgeCases.

Lemma zero_density_proposal_rejected_witness :
  MetropolisHastingsStep shelf_pdf (F32.of_int 6) F32.one F32.one
    [F32.of_int (-3); f32_half] = (F32.of_int 6, F32.one, []).
Proof.
  apply (zero_density_proposal_rejected shelf_pdf (F32.of_int 6) F32.one F32.one
           [F32.of_int (-3); f32_half] (F32.of_int (-3)) [f32_half] f32_half []);
    reflexivity.
Defined.

(** ** Bounds of InitSampleArray *)

Lemma for_range_length {A} (body : Z → list A → option (list A))
    (count : nat) (lo : Z) (a a' : list A) :
  (∀ i x x', body i x = Some x' → length x' = length x) →
  for_range count lo body a = Some a' → length a' = length a.
Proof.
  intros Hb. revert lo a. induction count as [|c IH]; intros lo a H.
  - by injection H as <-.
  - rewrite for_range_S in H. destruct (body lo a) as [a1|] eqn:E; [|done].
    cbn in H. apply IH in H. rewrite H. by eapply Hb.
Qed.

(** X8. For a lane of the launch and at least one dimension, InitSampleArray
    has defined behaviour exactly when the lane's last slot,
    totalThreads * (nNucleons - 1) + threadId, lies inside the sample array. *)
Theorem InitSampleArray_in_bounds (initSample nNucleons totalThreads threadId : Z)
    (prevSample : list float) :
  0 ≤ threadId < totalThreads → 0 < nNucleons →
  totalThreads * nNucleons ≤ INT_MAX →
  is_Some (InitSampleArray initSample nNucleons totalThreads threadId prevSample)
  ↔ totalThreads * (nNucleons - 1) + threadId < Z.of_nat (length prevSample).
Proof.
  intros Ht HnN Hmax.
  set (body := λ (n : Z) (a : list float),
         i ← flat_index totalThreads n threadId; store a i (F32.of_int initSample)).
  assert (Hlen : ∀ i x x', body i x = Some x' → length x' = length x).
  { intros i x x' H. unfold body in H.
    destruct (flat_index totalThreads i threadId) as [j|]; [|done]. cbn in H.
    apply store_inv in H as [_ ->]. by rewrite length_insert. }
  split.
  - intros [a' H]. unfold InitSampleArray, for_loop in H. fold body in H.
    replace (Z.to_nat (nNucleons - 0)) with (S (Z.to_nat (nNucleons - 1))) in H
      by lia.
    rewrite for_range_snoc in H.
    destruct (for_range (Z.to_nat (nNucleons - 1)) 0 body prevSample)
      as [a1|] eqn:E; [|done].
    cbn in H. apply for_range_length in E; [|done].
    unfold body in H. rewrite flat_index_Some in H by (try lia; nia).
    cbn in H. apply store_inv in H as [Hb _]. rewrite E in Hb.
    replace (0 + Z.of_nat (Z.to_nat (nNucleons - 1))) with (nNucleons - 1) in Hb
      by lia.
    lia.
  - intros Hlast.
    destruct (for_loop_inv (λ _ (a' : list float), length a' = length prevSample)
                body 0 nNucleons prevSample) as (a' & Hrun & _); [lia|done| |].
    + intros k x Hk Hl. unfold body.
      rewrite flat_index_Some by (try lia; nia). cbn.
      rewrite store_Some by (rewrite Hl; nia).
      eexists; split; [done|]. by rewrite length_insert.
    + by exists a'.
Qed.

Lemma InitSampleArray_in_bounds_witness :
  is_Some (InitSampleArray 3 2 2 1 example_samples)
  ↔ 2 * (2 - 1) + 1 < Z.of_nat (length example_samples).
Proof.
  apply (InitSampleArray_in_bounds 3 2 2 1 example_samples);
    [lia | lia | unfold INT_MAX; lia].
Defined.

(** ** The lane body, from the loaded state on *)

Lemma slot_or_foreign (nNucleons totalThreads threadId : Z) (j : nat) :
  0 ≤ threadId < totalThreads →
  (∃ n, 0 ≤ n < nNucleons ∧ j = Z.to_nat (totalThreads * n + threadId)) ∨
  (∀ n, 0 ≤ n < nNucleons → j ≠ Z.to_nat (totalThreads * n + threadId)).
Proof.
  intros Ht.
  pose (n0 := (Z.of_nat j - threadId) `div` totalThreads).
  destruct (decide (0 ≤ n0 < nNucleons ∧
                    Z.of_nat j = totalThreads * n0 + threadId)) as [[Hn E]|Hno].
  - left. exists n0. split; [done|]. lia.
  - right. intros n Hn E. apply Hno.
    assert (Ej : Z.of_nat j = totalThreads * n + threadId) by nia.
    assert (n0 = n).
    { unfold n0. rewrite Ej.
      replace (totalThreads * n + threadId - threadId) with (n * totalThreads)
        by lia.
      apply Z.div_mul. lia. }
    subst n. done.
Qed.

Section LaneProperties.
Context {curandStateXORWOW : Type} `{!Curand curandStateXORWOW}.

Implicit Types (pdf : PDF) (pdfs : list PDF) (pdf_of : Z → PDF).
Implicit Types (rs : curandStateXORWOW) (randState : list curandStateXORWOW).
Implicit Types (st : @Local curandStateXORWOW) (prevSample : list float).

Lemma local_bound_start (nNucleons totalThreads : Z) pdf_of (threadId : Z)
    prevSample (stepsize : float) randState :
  lane_wf nNucleons totalThreads threadId prevSample randState →
  ∃ rs0 st0,
    load randState threadId = Some rs0 ∧
    localRandState st0 = rs0 ∧
    local_ok nNucleons st0 ∧
    (∀ n, 0 ≤ n < nNucleons →
       ∃ x, load prevSample (totalThreads * n + threadId) = Some x ∧
            rd (localPrevSample st0) n = Some x ∧
            rd (localInvPrevPDF st0) n = Some (F32.div F32.one (pdf_of n x))) ∧
    ∀ k, local_bound nNucleons totalThreads pdf_of threadId prevSample stepsize
           randState k =
         iterate (sweep_bound nNucleons pdf_of stepsize) k st0.
Proof.
  intros (Ht & HnN & Hmax & Hlen & Hr).
  destruct (load_in_range randState threadId) as [rs0 Hrs0]; [lia|].
  destruct (copy_bound_spec nNucleons totalThreads pdf_of threadId prevSample)
    as (lps & lip & Hcopy & Hl1 & Hl2 & Hdims); [done..|].
  exists rs0, (mkLocal rs0 lps lip). split; [done|]. split; [done|]. split.
  { split; [done|]. split; [done|]. intros n Hn. cbn.
    destruct (Hdims n Hn) as (x & _ & -> & ->). eauto. }
  split; [exact Hdims|].
  intros k. unfold local_bound, load_lane. by rewrite Hrs0, Hcopy.
Qed.

Lemma iterate_inv (P : @Local curandStateXORWOW → Prop) (nNucleons : Z) pdf_of
    (stepsize : float) (k : Z) st :
  0 ≤ nNucleons → local_ok nNucleons st → P st →
  (∀ s s', local_ok nNucleons s → P s →
           sweep_bound nNucleons pdf_of stepsize s = Some s' → P s') →
  ∃ st', iterate (sweep_bound nNucleons pdf_of stepsize) k st = Some st' ∧
         local_ok nNucleons st' ∧ P st'.
Proof.
  intros HnN Hok HP Hstep. unfold iterate.
  destruct (Z.le_gt_cases k 0) as [Hk|Hk].
  { rewrite for_loop_empty by done. by exists st. }
  apply (for_loop_inv (λ _ s, local_ok nNucleons s ∧ P s)); [lia|done|].
  intros i s Hi [Hoks HPs].
  destruct (sweep_bound_spec nNucleons pdf_of stepsize s HnN Hoks)
    as (s' & Hrun & Hok' & _).
  exists s'. split; [done|]. split; [done|]. by apply (Hstep s s').
Qed.

(** X3. With an iteration count of zero or less, a lane of an instantiated
    kernel stores back exactly what it loaded: the sample array and the
    stream-state array come out unchanged. *)
Theorem no_iteration_identity (nNucleons totalThreads : Z) pdfs
    (body : @lane_body curandStateXORWOW) (threadId : Z) prevSample
    (stepsize : float) randState (iterations : Z) :
  WarmupMetropolis nNucleons totalThreads pdfs = inr body →
  lane_wf nNucleons totalThreads threadId prevSample randState →
  iterations ≤ 0 →
  body threadId prevSample stepsize randState iterations
    = Some (prevSample, randState).
Proof.
  intros Hinst Hwf Hit.
  apply WarmupMetropolis_inr in Hinst as (_ & _ & Hb). rewrite Hb.
  destruct (local_bound_start nNucleons totalThreads (bound_pdf pdfs) threadId
              prevSample stepsize randState Hwf)
    as (rs0 & st0 & Hrs0 & Hst0 & Hok & Hdims & Hloc).
  destruct (store_lane_spec nNucleons totalThreads threadId st0 prevSample
              randState Hwf Hok) as (a' & Hst & Hl & Hmine & Hother).
  unfold WarmupMetropolis_bound. rewrite Hloc. unfold iterate.
  rewrite for_loop_empty by done. cbn. rewrite Hst.
  destruct Hwf as (Ht & HnN & Hmax & Hlen & Hr).
  f_equal. f_equal.
  - apply list_eq. intros j.
    destruct (slot_or_foreign nNucleons totalThreads threadId j Ht)
      as [(n & Hn & ->)|Hf]; [|by apply Hother].
    rewrite Hmine by done.
    destruct (Hdims n Hn) as (x & Hx & -> & _).
    apply load_Some in Hx as [_ Hx]. done.
  - apply list_insert_id. apply load_Some in Hrs0 as [_ Hrs0]. by rewrite Hst0.
Qed.

(** X6. If the density bound to dimension n evaluates to a NaN at the sample
    a lane loads for that dimension, the cache of the dimension is a NaN,
    every step of the dimension rejects, and after any number of iterations
    the lane stores the same sample back: the chain never leaves the point. *)
Theorem nan_density_freezes (nNucleons totalThreads : Z) pdfs
    (body : @lane_body curandStateXORWOW) (threadId : Z) prevSample
    (stepsize : float) randState (iterations n : Z) (x : float) :
  WarmupMetropolis nNucleons totalThreads pdfs = inr body →
  lane_wf nNucleons totalThreads threadId prevSample randState →
  0 ≤ n < nNucleons →
  load prevSample (totalThreads * n + threadId) = Some x →
  bound_pdf pdfs n x = S754_nan →
  ∃ a' r',
    body threadId prevSample stepsize randState iterations = Some (a', r') ∧
    load a' (totalThreads * n + threadId) = Some x.
Proof.
  intros Hinst Hwf Hn Hx Hnan.
  apply WarmupMetropolis_inr in Hinst as (_ & _ & Hb). rewrite Hb.
  destruct (local_bound_start nNucleons totalThreads (bound_pdf pdfs) threadId
              prevSample stepsize randState Hwf)
    as (rs0 & st0 & Hrs0 & Hst0 & Hok & Hdims & Hloc).
  pose proof Hwf as (Ht & HnN & Hmax & Hlen & Hr).
  pose (P := λ s : @Local curandStateXORWOW,
    rd (localPrevSample s) n = Some x ∧
    rd (localInvPrevPDF s) n = Some S754_nan).
  destruct (iterate_inv P nNucleons (bound_pdf pdfs) stepsize iterations st0)
    as (st & Hrun & Hokst & Hxs & _); [done|done| | |].
  - destruct (Hdims n Hn) as (x0 & Hx0 & H1 & H2).
    rewrite Hx in Hx0. injection Hx0 as <-.
    split; [done|]. by rewrite H2, Hnan, div_one_nan.
  - intros s s' Hoks [H1 H2] Hsweep.
    destruct (sweep_bound_spec nNucleons (bound_pdf pdfs) stepsize s HnN Hoks)
      as (s1 & Hrun1 & _ & _ & Hd).
    rewrite Hsweep in Hrun1. injection Hrun1 as <-.
    destruct (Hd n Hn) as (x0 & inv0 & Ex & Einv & Hx' & Hinv').
    rewrite H1 in Ex. injection Ex as <-.
    rewrite H2 in Einv. injection Einv as <-.
    rewrite MetropolisHastingsStep_nan_cache in Hx', Hinv'. by split.
  - destruct (store_lane_spec nNucleons totalThreads threadId st prevSample
                randState Hwf Hokst) as (a' & Hst & Hl & Hmine & Hother).
    exists a', (<[Z.to_nat threadId := localRandState st]> randState). split.
    + unfold WarmupMetropolis_bound. rewrite Hloc, Hrun. done.
    + apply load_Some. split; [nia|]. by rewrite Hmine.
Qed.

End LaneProperties.

(** ** Schedules of lanes *)

Lemma for_range_run_lanes {M} (kernel : Z → M → option M) (count : nat)
    (i : Z) (mem : M) :
  for_range count i kernel mem = run_lanes (seqZ i (Z.of_nat count)) kernel mem.
Proof.
  revert i mem. induction count as [|c IH]; intros i mem; [done|].
  rewrite for_range_S, seqZ_cons by lia. cbn [run_lanes].
  destruct (kernel i mem) as [mem'|]; [|done]. cbn [mbind option_bind].
  rewrite IH. do 2 f_equal; lia.
Qed.

Lemma launch_run_lanes {M} (kernel : Z → M → option M) (nThreads : Z) (mem : M) :
  launch nThreads kernel mem = run_lanes (seqZ 0 nThreads) kernel mem.
Proof.
  unfold launch, for_loop. rewrite for_range_run_lanes.
  destruct (Z.le_gt_cases nThreads 0).
  - rewrite !seqZ_nil by lia. done.
  - do 2 f_equal. lia.
Qed.

Lemma run_lanes_ext {M} (f g : Z → M → option M) (order : list Z) (mem : M) :
  (∀ t m, f t m = g t m) → run_lanes order f mem = run_lanes order g mem.
Proof.
  intros Hfg. revert mem. induction order as [|t rest IH]; intros mem; [done|].
  cbn. rewrite Hfg. destruct (g t mem); [|done]. cbn. apply IH.
Qed.

Section ScheduleProperties.
Context {curandStateXORWOW : Type} `{!Curand curandStateXORWOW}.

Implicit Types (pdfs : list PDF) (pdf_of : Z → PDF).
Implicit Types (a prevSample : list float).
Implicit Types (r randState : list curandStateXORWOW).

Lemma launch_lane_wf (nNucleons totalThreads t : Z) a r :
  launch_wf nNucleons totalThreads a r → 0 ≤ t < totalThreads →
  lane_wf nNucleons totalThreads t a r.
Proof. intros (? & ? & ? & ?) Ht. repeat split; lia. Qed.

Lemma slot_lt (nNucleons totalThreads n t : Z) :
  0 ≤ n < nNucleons → 0 ≤ t < totalThreads →
  0 ≤ totalThreads * n + t < totalThreads * nNucleons.
Proof. intros. nia. Qed.

(** The lanes of a duplicate-free schedule do not interfere: each one writes
    back what it computes on the arrays as they were before the schedule. *)
Lemma run_lanes_bound_spec (nNucleons totalThreads : Z) pdf_of
    (stepsize : float) (iterations : Z) (order : list Z) a r :
  launch_wf nNucleons totalThreads a r →
  NoDup order → (∀ t, t ∈ order → 0 ≤ t < totalThreads) →
  ∃ a' r',
    run_lanes order
      (lane_kernel (WarmupMetropolis_bound nNucleons totalThreads pdf_of)
         stepsize iterations) (a, r) = Some (a', r') ∧
    lanes_done nNucleons totalThreads pdf_of stepsize iterations a r order a' r'.
Proof.
  intros Hwf Hnd Hvalid. revert a r Hwf.
  induction order as [|t0 rest IH]; intros a r Hwf.
  { exists a, r. split; [done|]. repeat split; try done.
    intros t _ Hin. by apply elem_of_nil in Hin. }
  apply list.NoDup_cons in Hnd as [Ht0 Hnd].
  assert (Hv0 : 0 ≤ t0 < totalThreads) by (apply Hvalid; left).
  assert (Hvr : ∀ t, t ∈ rest → 0 ≤ t < totalThreads)
    by (intros t Ht; apply Hvalid; by right).
  destruct (WarmupMetropolis_bound_spec nNucleons totalThreads pdf_of t0 a
              stepsize r iterations (launch_lane_wf _ _ _ _ _ Hwf Hv0))
    as (rs0 & st0 & a1 & _ & Hloc0 & Hrun0 & _ & Hl1 & Hmine & Hother).
  set (r1 := <[Z.to_nat t0 := localRandState st0]> r) in *.
  pose proof Hwf as (HnN & Hmax & Hla & Hlr).
  assert (Hwf1 : launch_wf nNucleons totalThreads a1 r1).
  { unfold launch_wf, r1. rewrite Hl1, length_insert. done. }
  destruct (IH Hnd Hvr a1 r1 Hwf1)
    as (a' & r' & Hrun & Hla' & Hlr' & Hdone & Hrest & Hhigh & Hhighr).
  (* what lane t0 left untouched *)
  assert (F1 : ∀ t n, 0 ≤ t < totalThreads → t ≠ t0 → 0 ≤ n < nNucleons →
            a1 !! Z.to_nat (totalThreads * n + t) =
            a !! Z.to_nat (totalThreads * n + t)).
  { intros t n Ht Hne Hn. apply Hother. intros n' Hn' E.
    pose proof (slot_lt nNucleons totalThreads n t Hn Ht).
    pose proof (slot_lt nNucleons totalThreads n' t0 Hn' Hv0).
    apply Z2Nat.inj in E; [|lia..].
    apply flat_index_inj in E; [|done..]. lia. }
  assert (F2 : ∀ t, 0 ≤ t → t ≠ t0 → r1 !! Z.to_nat t = r !! Z.to_nat t).
  { intros t Ht Hne. unfold r1. apply list_lookup_insert_ne. lia. }
  assert (F3 : ∀ t, 0 ≤ t < totalThreads → t ≠ t0 →
            local_bound nNucleons totalThreads pdf_of t a1 stepsize r1 iterations =
            local_bound nNucleons totalThreads pdf_of t a stepsize r iterations).
  { intros t Ht Hne. apply local_bound_agree.
    - intros n Hn. unfold load.
      pose proof (slot_lt nNucleons totalThreads n t Hn Ht).
      destruct (Z.leb_spec 0 (totalThreads * n + t)); [|lia]. by apply F1.
    - unfold load. destruct (Z.leb_spec 0 t); [|lia]. apply F2; lia. }
  exists a', r'. split.
  { assert (Hk : lane_kernel
                   (WarmupMetropolis_bound nNucleons totalThreads pdf_of)
                   stepsize iterations t0 (a, r) = Some (a1, r1)) by exact Hrun0.
    cbn [run_lanes]. rewrite Hk. exact Hrun. }
  split; [congruence|]. split; [unfold r1 in Hlr'; by rewrite length_insert in Hlr'|].
  split; [|split; [|split]].
  - intros t Ht Hin. apply elem_of_cons in Hin as [->|Hin].
    + destruct (Hrest t0 Hv0 Ht0) as [Hr' Ha'].
      exists st0. split; [done|]. split.
      * rewrite Hr'. unfold r1. apply list_lookup_insert_eq. lia.
      * intros n Hn. rewrite Ha' by done. by apply Hmine.
    + assert (t ≠ t0) by (intros ->; done).
      destruct (Hdone t Ht Hin) as (st & Hloc & Hr' & Ha').
      exists st. rewrite <- F3 by done. done.
  - intros t Ht Hnin. apply not_elem_of_cons in Hnin as [Hne Hnin].
    destruct (Hrest t Ht Hnin) as [Hr' Ha']. split.
    + rewrite Hr'. apply F2; lia.
    + intros n Hn. rewrite Ha' by done. by apply F1.
  - intros j Hj. rewrite Hhigh by done. apply Hother. intros n' Hn' E.
    pose proof (slot_lt nNucleons totalThreads n' t0 Hn' Hv0). lia.
  - intros j Hj. rewrite Hhighr by done. unfold r1.
    apply list_lookup_insert_ne. lia.
Qed.

Lemma lanes_done_unique (nNucleons totalThreads : Z) pdf_of (stepsize : float)
    (iterations : Z) a r (done1 done2 : list Z) (a1 a2 : list float)
    (r1 r2 : list curandStateXORWOW) :
  0 ≤ nNucleons →
  (∀ t, t ∈ done1 ↔ t ∈ done2) →
  lanes_done nNucleons totalThreads pdf_of stepsize iterations a r done1 a1 r1 →
  lanes_done nNucleons totalThreads pdf_of stepsize iterations a r done2 a2 r2 →
  a1 = a2 ∧ r1 = r2.
Proof.
  intros HnN Hsame (Hla1 & Hlr1 & Hd1 & Hn1 & Hh1 & Hhr1)
    (Hla2 & Hlr2 & Hd2 & Hn2 & Hh2 & Hhr2).
  split; apply list_eq; intros j.
  - destruct (decide (Z.to_nat (totalThreads * nNucleons) ≤ j)%nat) as [Hj|Hj].
    { by rewrite Hh1, Hh2. }
    assert (HT : 0 < totalThreads) by nia.
    pose proof (Z.div_mod (Z.of_nat j) totalThreads ltac:(lia)) as Hdm.
    pose proof (Z.mod_pos_bound (Z.of_nat j) totalThreads HT) as Hmod.
    set (n := Z.of_nat j `div` totalThreads) in *.
    set (t := Z.of_nat j `mod` totalThreads) in *.
    assert (Hn : 0 ≤ n < nNucleons).
    { split; [apply Z.div_pos; lia|]. apply Z.div_lt_upper_bound; lia. }
    replace j with (Z.to_nat (totalThreads * n + t)) by lia.
    destruct (decide (t ∈ done1)) as [Hin|Hnin].
    + destruct (Hd1 t Hmod Hin) as (st1 & Hloc1 & _ & Ha1).
      destruct (Hd2 t Hmod (proj1 (Hsame t) Hin)) as (st2 & Hloc2 & _ & Ha2).
      rewrite Hloc1 in Hloc2. injection Hloc2 as <-.
      by rewrite Ha1, Ha2.
    + destruct (Hn1 t Hmod Hnin) as [_ Ha1].
      destruct (Hn2 t Hmod) as [_ Ha2]; [by rewrite <- Hsame|].
      by rewrite Ha1, Ha2.
  - destruct (decide (Z.to_nat totalThreads ≤ j)%nat) as [Hj|Hj].
    { by rewrite Hhr1, Hhr2. }
    set (t := Z.of_nat j).
    assert (Ht : 0 ≤ t < totalThreads) by lia.
    replace j with (Z.to_nat t) by lia.
    destruct (decide (t ∈ done1)) as [Hin|Hnin].
    + destruct (Hd1 t Ht Hin) as (st1 & Hloc1 & Hr1 & _).
      destruct (Hd2 t Ht (proj1 (Hsame t) Hin)) as (st2 & Hloc2 & Hr2 & _).
      rewrite Hloc1 in Hloc2. injection Hloc2 as <-.
      by rewrite Hr1, Hr2.
    + destruct (Hn1 t Ht Hnin) as [Hr1 _].
      destruct (Hn2 t Ht) as [Hr2 _]; [by rewrite <- Hsame|].
      by rewrite Hr1, Hr2.
Qed.

Lemma lane_kernel_bound (nNucleons totalThreads : Z) pdfs
    (body : @lane_body curandStateXORWOW) (stepsize : float) (iterations : Z)
    (order : list Z) (mem : list float * list curandStateXORWOW) :
  WarmupMetropolis nNucleons totalThreads pdfs = inr body →
  run_lanes order (lane_kernel body stepsize iterations) mem =
  run_lanes order
    (lane_kernel (WarmupMetropolis_bound nNucleons totalThreads (bound_pdf pdfs))
       stepsize iterations) mem.
Proof.
  intros Hinst. apply WarmupMetropolis_inr in Hinst as (_ & _ & Hb).
  apply run_lanes_ext. intros t m. unfold lane_kernel. apply Hb.
Qed.

Lemma launch_lanes_done (nNucleons totalThreads : Z) pdfs
    (body : @lane_body curandStateXORWOW) a (stepsize : float) r
    (iterations : Z) :
  WarmupMetropolis nNucleons totalThreads pdfs = inr body →
  launch_wf nNucleons totalThreads a r →
  ∃ a' r',
    launch totalThreads (lane_kernel body stepsize iterations) (a, r)
      = Some (a', r') ∧
    lanes_done nNucleons totalThreads (bound_pdf pdfs) stepsize iterations a r
      (seqZ 0 totalThreads) a' r'.
Proof.
  intros Hinst Hwf.
  rewrite launch_run_lanes, (lane_kernel_bound _ _ _ _ _ _ _ _ Hinst).
  apply run_lanes_bound_spec; [done|apply NoDup_seqZ|].
  intros t Ht. apply elem_of_seqZ in Ht. lia.
Qed.

(** X4. A launch of an instantiated kernel on all lanes succeeds, and the
    lanes do not interfere: for every lane t, the stream state and the
    samples found in the lane's slots afterwards are those of the local state
    that lane t computes from the arrays as they were before the launch. *)
Theorem launch_lanes_independent (nNucleons totalThreads : Z) pdfs
    (body : @lane_body curandStateXORWOW) a (stepsize : float) r
    (iterations : Z) :
  WarmupMetropolis nNucleons totalThreads pdfs = inr body →
  launch_wf nNucleons totalThreads a r →
  ∃ a' r',
    launch totalThreads (lane_kernel body stepsize iterations) (a, r)
      = Some (a', r') ∧
    length a' = length a ∧ length r' = length r ∧
    ∀ t, 0 ≤ t < totalThreads →
      ∃ st,
        lane_local nNucleons totalThreads pdfs t a stepsize r iterations
          = Some st ∧
        load r' t = Some (localRandState st) ∧
        ∀ n, 0 ≤ n < nNucleons →
          load a' (totalThreads * n + t) = rd (localPrevSample st) n.
Proof.
  intros Hinst Hwf.
  destruct (launch_lanes_done _ _ _ _ a stepsize r iterations Hinst Hwf)
    as (a' & r' & Hrun & Hla & Hlr & Hdone & _).
  apply WarmupMetropolis_inr in Hinst as (Hlen & Hne & _).
  exists a', r'. split; [done|]. split; [done|]. split; [done|].
  intros t Ht.
  destruct (Hdone t Ht) as (st & Hloc & Hr' & Ha'); [apply elem_of_seqZ; lia|].
  exists st. rewrite lane_local_bound by done. split; [done|]. split.
  - apply load_Some. split; [lia|done].
  - intros n Hn. unfold load.
    destruct (Z.leb_spec 0 (totalThreads * n + t)); [by apply Ha'|nia].
Qed.

(** X5. Running the lanes of an instantiated kernel one after the other in
    any order, each lane once, gives the same sample array and stream states
    as the launch in increasing lane order. *)
Theorem lane_order_irrelevant (nNucleons totalThreads : Z) pdfs
    (body : @lane_body curandStateXORWOW) a (stepsize : float) r
    (iterations : Z) (order : list Z) :
  WarmupMetropolis nNucleons totalThreads pdfs = inr body →
  launch_wf nNucleons totalThreads a r →
  order ≡ₚ seqZ 0 totalThreads →
  run_lanes order (lane_kernel body stepsize iterations) (a, r) =
  launch totalThreads (lane_kernel body stepsize iterations) (a, r).
Proof.
  intros Hinst Hwf Hperm.
  destruct (launch_lanes_done _ _ _ _ a stepsize r iterations Hinst Hwf)
    as (a2 & r2 & Hrun2 & Hdone2).
  rewrite Hrun2, (lane_kernel_bound _ _ _ _ _ _ _ _ Hinst).
  destruct (run_lanes_bound_spec nNucleons totalThreads (bound_pdf pdfs)
              stepsize iterations order a r Hwf) as (a1 & r1 & Hrun1 & Hdone1).
  - rewrite Hperm. apply NoDup_seqZ.
  - intros t Ht. rewrite Hperm in Ht. apply elem_of_seqZ in Ht. lia.
  - rewrite Hrun1.
    destruct (lanes_done_unique nNucleons totalThreads (bound_pdf pdfs) stepsize
                iterations a r order (seqZ 0 totalThreads) a1 a2 r1 r2)
      as [-> ->]; [by destruct Hwf| |done|done|done].
    intros t. by rewrite Hperm.
Qed.

End ScheduleProperties.

Section SeededWarmup.
Context {curandStateXORWOW : Type} `{!Curand curandStateXORWOW}
  `{!CurandInit curandStateXORWOW}.

(** X2. Seeding the streams with RandStateInit and then launching an
    instantiated warm-up kernel leaves, for every lane t, the stream
    curand_init(seed, t, 0) advanced by nNucleons * iterations pairs of a
    normal and a uniform draw, whatever the densities, the samples and the
    step size. *)
Theorem seeded_warmup_streams (seed nNucleons totalThreads : Z)
    (pdfs : list PDF) (body : @lane_body curandStateXORWOW) (a : list float)
    (stepsize : float) (r : list curandStateXORWOW) (iterations : Z) :
  WarmupMetropolis nNucleons totalThreads pdfs = inr body →
  launch_wf nNucleons totalThreads a r →
  0 ≤ totalThreads →
  ∃ r0 a' r',
    launch totalThreads (RandStateInit seed) r = Some r0 ∧
    launch totalThreads (lane_kernel body stepsize iterations) (a, r0)
      = Some (a', r') ∧
    ∀ t, 0 ≤ t < totalThreads →
      load r' t =
        Some (Nat.iter (Z.to_nat nNucleons * Z.to_nat iterations) two_draws
                (curand_init seed t 0)).
Proof.
  intros Hinst Hwf HT. pose proof Hwf as (HnN & Hmax & Hla & Hlr).
  destruct (RandStateInit_launch seed totalThreads r) as (r0 & Hseed & Hl0 & Hin & _);
    [lia|].
  assert (Hwf0 : launch_wf nNucleons totalThreads a r0).
  { unfold launch_wf. by rewrite Hl0. }
  destruct (launch_lanes_done _ _ _ _ a stepsize r0 iterations Hinst Hwf0)
    as (a' & r' & Hrun & _ & _ & Hdone & _).
  exists r0, a', r'. split; [done|]. split; [done|]. intros t Ht.
  destruct (Hdone t Ht) as (st & Hloc & Hr' & _); [apply elem_of_seqZ; lia|].
  destruct (local_bound_spec nNucleons totalThreads (bound_pdf pdfs) t a
              stepsize r0 iterations (launch_lane_wf _ _ _ _ _ Hwf0 Ht))
    as (rs0 & st' & Hrs0 & Hloc' & _ & Hrs & _).
  rewrite Hloc in Hloc'. injection Hloc' as <-.
  rewrite Hin in Hrs0 by done. injection Hrs0 as <-.
  apply load_Some. split; [lia|]. by rewrite Hr', Hrs.
Qed.

End SeededWarmup.

(** ** The recursive templates *)

Section RecursiveTemplates.
Context {curandStateXORWOW : Type} `{!Curand curandStateXORWOW}.


End RecursiveTemplates.

(** ** Resuming a warm-up *)

Lemma local_array_eq (nNucleons : Z) (l1 l2 : local_array) :
  Z.of_nat (length l1) = nNucleons → Z.of_nat (length l2) = nNucleons →
  (∀ n, 0 ≤ n < nNucleons → ∃ x, rd l1 n = Some x ∧ rd l2 n = Some x) →
  l1 = l2.
Proof.
  intros H1 H2 Hrd. apply list_eq. intros j.
  destruct (decide (Z.of_nat j < nNucleons)) as [Hj|Hj].
  - destruct (Hrd (Z.of_nat j)) as (x & Hx1 & Hx2); [lia|].
    apply rd_Some in Hx1 as [_ Hx1]. apply rd_Some in Hx2 as [_ Hx2].
    rewrite Nat2Z.id in Hx1, Hx2. congruence.
  - rewrite !lookup_ge_None_2 by lia. done.
Qed.

Section Resume.
Context {curandStateXORWOW : Type} `{!Curand curandStateXORWOW}.

Implicit Types (pdfs : list PDF) (pdf_of : Z → PDF).
Implicit Types (st : @Local curandStateXORWOW).

Lemma iterate_add (sweep : @Local curandStateXORWOW → option Local)
    (k1 k2 : Z) st :
  0 ≤ k1 → 0 ≤ k2 →
  iterate sweep (k1 + k2) st = st' ← iterate sweep k1 st; iterate sweep k2 st'.
Proof.
  intros Hk1 Hk2. revert k2 Hk2. apply natlike_ind.
  - replace (k1 + 0) with k1 by lia.
    destruct (iterate sweep k1 st) as [s|]; [|done]. cbn.
    unfold iterate. by rewrite for_loop_empty.
  - intros k2 Hk2 IH. replace (k1 + Z.succ k2) with (k1 + k2 + 1) by lia.
    rewrite iterate_succ, IH by lia.
    destruct (iterate sweep k1 st) as [s|]; [|done]. cbn.
    replace (Z.succ k2) with (k2 + 1) by lia. by rewrite iterate_succ.
Qed.

(** X11. A warm-up can be resumed: when a lane has run k1 iterations and
    stored its state, running the lane again for k2 iterations from the
    stored arrays gives the same arrays as one run of k1 + k2 iterations.
    (The cache that the second run recomputes from the stored samples is the
    cache the first run ended with.) *)
Theorem warmup_resumes (nNucleons totalThreads : Z) pdfs
    (body : @lane_body curandStateXORWOW) (threadId : Z) (a a1 : list float)
    (stepsize : float) (r r1 : list curandStateXORWOW) (k1 k2 : Z) :
  WarmupMetropolis nNucleons totalThreads pdfs = inr body →
  lane_wf nNucleons totalThreads threadId a r →
  0 ≤ k1 → 0 ≤ k2 →
  body threadId a stepsize r k1 = Some (a1, r1) →
  body threadId a1 stepsize r1 k2 = body threadId a stepsize r (k1 + k2).
Proof.
  intros Hinst Hwf Hk1 Hk2 Hrun1.
  apply WarmupMetropolis_inr in Hinst as (_ & _ & Hb). rewrite !Hb in *.
  set (pdf_of := bound_pdf pdfs) in *.
  pose proof Hwf as (Ht & HnN & Hmax & Hlen & Hr).
  destruct (local_bound_start nNucleons totalThreads pdf_of threadId a stepsize
              r Hwf) as (rs0 & st0 & Hrs0 & Hst0 & Hok0 & Hdims0 & Hloc0).
  destruct (iterate_inv (cache_consistent nNucleons pdf_of) nNucleons pdf_of
              stepsize k1 st0) as (st1 & Hit1 & Hok1 & Hc1); [done|done| | |].
  { intros n Hn. destruct (Hdims0 n Hn) as (x & _ & ? & ?). eauto. }
  { intros s s' Hoks Hcs Hsw. by eapply sweep_bound_cache. }
  destruct (store_lane_spec nNucleons totalThreads threadId st1 a r Hwf Hok1)
    as (a1' & Hst1 & Hl1 & Hmine1 & Hother1).
  unfold WarmupMetropolis_bound in Hrun1 |- *.
  rewrite Hloc0, Hit1 in Hrun1. cbn in Hrun1. rewrite Hst1 in Hrun1.
  injection Hrun1 as <- <-.
  set (r1 := <[Z.to_nat threadId := localRandState st1]> r).
  assert (Hwf1 : lane_wf nNucleons totalThreads threadId a1' r1).
  { unfold lane_wf, r1. rewrite Hl1, length_insert. done. }
  destruct (local_bound_start nNucleons totalThreads pdf_of threadId a1'
              stepsize r1 Hwf1) as (rs0' & st0' & Hrs0' & Hst0' & Hok0' & Hdims0' & Hloc0').
  assert (Est : st0' = st1).
  { destruct st0' as [rs' lps' lip'], st1 as [rs1 lps1 lip1]. cbn in *.
    destruct Hok0' as (Hl1' & Hl2' & _). destruct Hok1 as (Hl11 & Hl21 & _).
    cbn in *. f_equal.
    - subst rs'. apply load_Some in Hrs0' as [_ Hrs0']. unfold r1 in Hrs0'.
      rewrite list_lookup_insert_eq in Hrs0' by lia. congruence.
    - apply (local_array_eq nNucleons); [done|done|]. intros n Hn.
      destruct (Hdims0' n Hn) as (x & Hx & Hx' & _). exists x. split; [done|].
      apply load_Some in Hx as [_ Hx]. by rewrite <- Hmine1, Hx.
    - apply (local_array_eq nNucleons); [done|done|]. intros n Hn.
      destruct (Hdims0' n Hn) as (x & Hx & _ & Hinv').
      destruct (Hc1 n Hn) as (x1 & Hx1 & Hinv1). cbn in Hx1, Hinv1.
      apply load_Some in Hx as [_ Hx]. rewrite Hmine1 in Hx by done.
      rewrite Hx in Hx1. injection Hx1 as <-. eauto. }
  rewrite Hloc0', Est, Hloc0, (iterate_add _ k1 k2) by done.
  rewrite Hit1. cbn [mbind option_bind].
  destruct (iterate_inv (λ _, True) nNucleons pdf_of stepsize k2 st1)
    as (st2 & Hit2 & Hok2 & _); [done..|].
  rewrite Hit2. cbn [mbind option_bind].
  destruct (store_lane_spec nNucleons totalThreads threadId st2 a1' r1 Hwf1 Hok2)
    as (a2 & Hst2 & Hl2 & Hmine2 & Hother2).
  destruct (store_lane_spec nNucleons totalThreads threadId st2 a r Hwf Hok2)
    as (a2' & Hst2' & Hl2' & Hmine2' & Hother2').
  rewrite Hst2, Hst2'. f_equal. f_equal.
  - apply list_eq. intros j.
    destruct (slot_or_foreign nNucleons totalThreads threadId j Ht)
      as [(n & Hn & ->)|Hf].
    + by rewrite Hmine2, Hmine2'.
    + by rewrite Hother2, Hother2', Hother1.
  - unfold r1. apply list_insert_insert_eq.
Qed.

End Resume.

(** ** The further theorems at the concrete launch *)

Lemma no_iteration_identity_witness :
  WarmupMetropolis_single 2 2 shelf_pdf 1 example_samples
    F32.one example_streams 0 = Some (example_samples, example_streams).
Proof.
  apply (no_iteration_identity 2 2 [shelf_pdf]
           (WarmupMetropolis_single 2 2 shelf_pdf)
           1 example_samples F32.one example_streams 0).
  - reflexivity.
  - unfold lane_wf, INT_MAX. cbn. lia.
  - lia.
Defined.

Lemma nan_density_freezes_witness :
  ∃ a' r',
    WarmupMetropolis_single 2 2 (const_pdf S754_nan) 1
      example_samples F32.one example_streams 2 = Some (a', r') ∧
    load a' (2 * 1 + 1) = Some F32.zero.
Proof.
  apply (nan_density_freezes 2 2 [const_pdf S754_nan]
           (WarmupMetropolis_single 2 2 (const_pdf S754_nan))
           1 example_samples F32.one example_streams 2 1 F32.zero).
  - reflexivity.
  - unfold lane_wf, INT_MAX. cbn. lia.
  - lia.
  - reflexivity.
  - reflexivity.
Defined.

Lemma launch_lanes_independent_witness :
  ∃ a' r',
    launch 2
      (lane_kernel (WarmupMetropolis_single 2 2 shelf_pdf)
         F32.one 1) (example_samples, example_streams) = Some (a', r') ∧
    length a' = length example_samples ∧ length r' = length example_streams ∧
    ∀ t, 0 ≤ t < 2 →
      ∃ st,
        lane_local 2 2 [shelf_pdf] t example_samples F32.one example_streams 1
          = Some st ∧
        load r' t = Some (localRandState st) ∧
        ∀ n, 0 ≤ n < 2 → load a' (2 * n + t) = rd (localPrevSample st) n.
Proof.
  apply (launch_lanes_independent 2 2 [shelf_pdf]
           (WarmupMetropolis_single 2 2 shelf_pdf)
           example_samples F32.one example_streams 1).
  - reflexivity.
  - unfold launch_wf, INT_MAX. cbn. lia.
Defined.

Lemma lane_order_irrelevant_witness :
  run_lanes [1; 0]
    (lane_kernel (WarmupMetropolis_single 2 2 shelf_pdf)
       F32.one 1) (example_samples, example_streams) =
  launch 2
    (lane_kernel (WarmupMetropolis_single 2 2 shelf_pdf)
       F32.one 1) (example_samples, example_streams).
Proof.
  apply (lane_order_irrelevant 2 2 [shelf_pdf]
           (WarmupMetropolis_single 2 2 shelf_pdf)
           example_samples F32.one example_streams 1 [1; 0]).
  - reflexivity.
  - unfold launch_wf, INT_MAX. cbn. lia.
  - apply perm_swap.
Defined.

Lemma seeded_warmup_streams_witness :
  ∃ r0 a' r',
    launch 2 (RandStateInit 7) example_streams = Some r0 ∧
    launch 2
      (lane_kernel (WarmupMetropolis_single 2 2 shelf_pdf)
         F32.one 1) (example_samples, r0) = Some (a', r') ∧
    ∀ t, 0 ≤ t < 2 →
      load r' t =
        Some (Nat.iter (Z.to_nat 2 * Z.to_nat 1) two_draws (curand_init 7 t 0)).
Proof.
  apply (seeded_warmup_streams 7 2 2 [shelf_pdf]
           (WarmupMetropolis_single 2 2 shelf_pdf)
           example_samples F32.one example_streams 1).
  - reflexivity.
  - unfold launch_wf, INT_MAX. cbn. lia.
  - lia.
Defined.

Lemma warmup_resumes_witness :
  WarmupMetropolis_single 2 2 shelf_pdf 1
    [F32.zero; F32.of_int 6; F32.zero; F32.zero] F32.one
    [[F32.one; f32_half; F32.of_int 6; f32_half]; []] 2 =
  WarmupMetropolis_single 2 2 shelf_pdf 1 example_samples
    F32.one example_streams (1 + 2).
Proof.
  apply (warmup_resumes 2 2 [shelf_pdf]
           (WarmupMetropolis_single 2 2 shelf_pdf)
           1 example_samples [F32.zero; F32.of_int 6; F32.zero; F32.zero]
           F32.one example_streams
           [[F32.one; f32_half; F32.of_int 6; f32_half]; []] 1 2).
  - reflexivity.
  - unfold lane_wf, INT_MAX. cbn. lia.
  - lia.
  - lia.
  - vm_compute. reflexivity.
Defined.

(** ** The support of the density *)

Section Support.
Context {curandStateXORWOW : Type} `{!Curand curandStateXORWOW}.

(** X12. When every uniform draw of the stream is positive, a lane that
    loads, for dimension n, a sample at which the bound density is neither a
    zero nor a NaN stores back, after any number of iterations, a sample at
    which the density is again neither a zero nor a NaN. *)
Theorem density_support_kept (nNucleons totalThreads : Z) (pdfs : list PDF)
    (body : @lane_body curandStateXORWOW) (threadId : Z)
    (prevSample : list float) (stepsize : float)
    (randState : list curandStateXORWOW) (iterations n : Z) (x : float) :
  (∀ rs, F32.ltb F32.zero (curand_uniform rs).1 = true) →
  WarmupMetropolis nNucleons totalThreads pdfs = inr body →
  lane_wf nNucleons totalThreads threadId prevSample randState →
  0 ≤ n < nNucleons →
  load prevSample (totalThreads * n + threadId) = Some x →
  f32_zero_or_nan (bound_pdf pdfs n x) = false →
  ∃ a' r' x',
    body threadId prevSample stepsize randState iterations = Some (a', r') ∧
    load a' (totalThreads * n + threadId) = Some x' ∧
    f32_zero_or_nan (bound_pdf pdfs n x') = false.
Proof.
  intros Hu Hinst Hwf Hn Hx Hpos.
  apply WarmupMetropolis_inr in Hinst as (_ & _ & Hb). rewrite Hb.
  destruct (local_bound_start nNucleons totalThreads (bound_pdf pdfs) threadId
              prevSample stepsize randState Hwf)
    as (rs0 & st0 & Hrs0 & Hst0 & Hok & Hdims & Hloc).
  pose proof Hwf as (Ht & HnN & Hmax & Hlen & Hr).
  pose (P := λ s : @Local curandStateXORWOW,
    ∃ x', rd (localPrevSample s) n = Some x' ∧
          f32_zero_or_nan (bound_pdf pdfs n x') = false).
  destruct (iterate_inv P nNucleons (bound_pdf pdfs) stepsize iterations st0)
    as (st & Hrun & Hokst & (x' & Hx' & Hpos')); [done|done| | |].
  - destruct (Hdims n Hn) as (x0 & Hx0 & H1 & _).
    rewrite Hx in Hx0. injection Hx0 as <-. by exists x.
  - intros s s' Hoks (x1 & H1 & Hp1) Hsweep.
    destruct (sweep_bound_spec nNucleons (bound_pdf pdfs) stepsize s HnN Hoks)
      as (s1 & Hrun1 & _ & _ & Hd).
    rewrite Hsweep in Hrun1. injection Hrun1 as <-.
    destruct (Hd n Hn) as (x0 & inv0 & Ex & _ & Hx1 & _).
    rewrite H1 in Ex. injection Ex as <-.
    eexists. split; [exact Hx1|]. by apply MetropolisHastingsStep_support.
  - destruct (store_lane_spec nNucleons totalThreads threadId st prevSample
                randState Hwf Hokst) as (a' & Hst & Hl & Hmine & Hother).
    exists a', (<[Z.to_nat threadId := localRandState st]> randState), x'.
    split; [|split; [|done]].
    + unfold WarmupMetropolis_bound. rewrite Hloc, Hrun. done.
    + apply load_Some. split; [nia|]. by rewrite Hmine.
Qed.

End Support.

Lemma density_support_kept_witness :
  ∃ a' r' x',
    WarmupMetropolis_single (curandStateXORWOW := Z) 2 2 shelf_pdf 1
      [F32.zero; F32.of_int 6; F32.zero; F32.of_int 6] F32.one [0; 0] 3
      = Some (a', r') ∧
    load a' (2 * 1 + 1) = Some x' ∧
    f32_zero_or_nan (bound_pdf [shelf_pdf] 1 x') = false.
Proof.
  apply (density_support_kept (curandStateXORWOW := Z) 2 2 [shelf_pdf]
           (WarmupMetropolis_single 2 2 shelf_pdf) 1
           [F32.zero; F32.of_int 6; F32.zero; F32.of_int 6] F32.one [0; 0] 3 1
           (F32.of_int 6)).
  - intros rs. reflexivity.
  - reflexivity.
  - unfold lane_wf, INT_MAX. cbn. lia.
  - lia.
  - reflexivity.
  - reflexivity.
Defined.

(** ** One iteration of the one-function kernel *)

Section SingleSweep.
Context {curandStateXORWOW : Type} `{!Curand curandStateXORWOW}.

(** X13. In the one-function kernel, iteration k+1 is one sweep after
    iteration k.  The local states after k and after k+1 iterations are both
    defined; the second is the sweep of the first, in which every dimension n
    is the result of one MetropolisHastingsStep on its value in the first,
    dimension 0 first, with the draws number 2n and 2n+1 that the sweep takes
    from the stream; and the body run for k+1 iterations stores the samples
    of the second state to the lane's slots. *)
Theorem single_sweep_order (nNucleons totalThreads : Z) (pdf : PDF)
    (threadId : Z) (prevSample : list float) (stepsize : float)
    (randState : list curandStateXORWOW) (k : Z) :
  lane_wf nNucleons totalThreads threadId prevSample randState →
  0 ≤ k →
  ∃ st_k st_k1 a',
    local_single nNucleons totalThreads pdf threadId prevSample stepsize
      randState k = Some st_k ∧
    local_single nNucleons totalThreads pdf threadId prevSample stepsize
      randState (k + 1) = Some st_k1 ∧
    sweep_single nNucleons pdf stepsize st_k = Some st_k1 ∧
    swept nNucleons (λ _, pdf) stepsize st_k st_k1 ∧
    WarmupMetropolis_single nNucleons totalThreads pdf threadId prevSample
      stepsize randState (k + 1) =
      Some (a', <[Z.to_nat threadId := localRandState st_k1]> randState) ∧
    ∀ n, 0 ≤ n < nNucleons →
      a' !! Z.to_nat (totalThreads * n + threadId) =
        rd (localPrevSample st_k1) n.
Proof.
  intros Hwf Hk. pose proof Hwf as (Ht & HnN & _).
  set (pdf_of := λ _ : Z, pdf).
  destruct (local_bound_start nNucleons totalThreads pdf_of threadId prevSample
              stepsize randState Hwf)
    as (rs0 & st0 & _ & _ & Hok0 & _ & Hloc).
  destruct (iterate_inv (λ _, True) nNucleons pdf_of stepsize k st0)
    as (st_k & Hit & Hok & _); [done..|].
  destruct (sweep_bound_spec nNucleons pdf_of stepsize st_k HnN Hok)
    as (st_k1 & Hsw & Hok1 & Hrs & Hdims).
  destruct (store_lane_spec nNucleons totalThreads threadId st_k1 prevSample
              randState Hwf Hok1) as (a' & Hst & _ & Hmine & _).
  assert (Hk1 : local_single nNucleons totalThreads pdf threadId prevSample
                  stepsize randState (k + 1) = Some st_k1).
  { change (local_bound nNucleons totalThreads pdf_of threadId prevSample
              stepsize randState (k + 1) = Some st_k1).
    rewrite Hloc, iterate_succ, Hit by done. exact Hsw. }
  exists st_k, st_k1, a'. split.
  { change (local_bound nNucleons totalThreads pdf_of threadId prevSample
              stepsize randState k = Some st_k). by rewrite Hloc. }
  split; [done|]. split; [exact Hsw|]. split; [by split|]. split; [|done].
  unfold WarmupMetropolis_single. rewrite Hk1. exact Hst.
Qed.

End SingleSweep.

Lemma single_sweep_order_witness :
  ∃ st_k st_k1 a',
    local_single 2 2 shelf_pdf 1 example_samples F32.one example_streams 0
      = Some st_k ∧
    local_single 2 2 shelf_pdf 1 example_samples F32.one example_streams (0 + 1)
      = Some st_k1 ∧
    sweep_single 2 shelf_pdf F32.one st_k = Some st_k1 ∧
    swept 2 (λ _, shelf_pdf) F32.one st_k st_k1 ∧
    WarmupMetropolis_single 2 2 shelf_pdf 1 example_samples F32.one
      example_streams (0 + 1) =
      Some (a', <[Z.to_nat 1 := localRandState st_k1]> example_streams) ∧
    ∀ n, 0 ≤ n < 2 → a' !! Z.to_nat (2 * n + 1) = rd (localPrevSample st_k1) n.
Proof.
  apply (single_sweep_order 2 2 shelf_pdf 1 example_samples F32.one
           example_streams 0).
  - unfold lane_wf, INT_MAX. cbn. lia.
  - lia.
Defined.
